(** * mp2p: bootstrap handshake, membership map and reconciliation loop

    A shallow embedding of [go-dht-fire/mp2p/mp2p.go].  The repository
    holds two variants of the package: the one that negotiates
    [PROTOCOL_BOOTSTRAP = "/mp2p/bootstrap"] (module [Bootstrap] below) and
    the one that negotiates [PROTOCOL_ID = "/p2p/dht"] (module [Dht]).

    The Go code works on package-level variables ([peerMap], [sm], [node],
    [kadDHT]).  Here they are threaded explicitly: every function is a
    computation in the monad [M], which carries the membership map and the
    state of the outside world, and which records, in program order, every
    observable step (lock operations, map accesses, log lines, bytes
    written to a stream). *)

From Stdlib Require Import Ascii String.
From stdpp Require Import base strings gmap list fin_maps.

Open Scope string_scope.
Open Scope list_scope.

(** ** Go values *)

(** An [error] value, identified with the text [log.Println] prints for it. *)
Definition error := string.

(** A Go result [(v, err)] of which the caller uses [v] only when
    [err == nil]. *)
Inductive result (A : Type) : Type :=
| Ok (a : A)
| Err (e : error).
Arguments Ok {A} a.
Arguments Err {A} e.

(** The byte ['\n']. *)
Definition LF : Ascii.ascii := Ascii.ascii_of_nat 10.
Definition nl : string := String LF "".

(** [strings.Join(elems, sep)]. *)
Fixpoint strings_Join (elems : list string) (sep : string) : string :=
  match elems with
  | [] => ""
  | [e] => e
  | e :: rest => e +:+ sep +:+ strings_Join rest sep
  end.

(** [strings.Replace(s, "\n", "", -1)]: every newline byte is dropped. *)
Fixpoint strings_Replace_nl (s : string) : string :=
  match s with
  | "" => ""
  | String c s' =>
      if Ascii.eqb c LF then strings_Replace_nl s' else String c (strings_Replace_nl s')
  end.

(** [bufio.Reader.ReadString(delim)] over the bytes [input] that the remote
    side sends before the stream ends: the bytes up to and including the
    first [delim], or [io.EOF] when the input ends before one arrives. *)
Fixpoint ReadString (delim : Ascii.ascii) (input : string) : result string :=
  match input with
  | "" => Err "EOF"
  | String c rest =>
      if Ascii.eqb c delim then Ok (String c "")
      else match ReadString delim rest with
           | Ok line => Ok (String c line)
           | Err e => Err e
           end
  end.

(** [peer.AddrInfo]; the peer ID is kept in its [String()] form, which is
    the only way the package uses it. *)
Record AddrInfo (Multiaddr : Type) : Type := mkAddrInfo {
  ID : string;
  Addrs : list Multiaddr;
}.
Arguments mkAddrInfo {Multiaddr} ID Addrs.
Arguments ID {Multiaddr} _.
Arguments Addrs {Multiaddr} _.

(** A [network.Stream] as the package sees it: the identity and address of
    the remote side, the bytes the remote side sends, and the outcomes of
    [Write] and [Reset]. *)
Record Stream : Type := mkStream {
  RemotePeer : string;
  RemoteMultiaddr : string;
  incoming : string;
  write_err : option error;
  reset_err : option error;
}.

(** An argument of [log.Println]. *)
Inductive logarg : Type :=
| S_ (s : string)
| I_ (n : Z).

(** The observable steps of the package, in program order. *)
Inductive event : Type :=
| ELock                      (* sm.Lock() *)
| EUnlock                    (* sm.Unlock() *)
| ERLock                     (* sm.RLock() *)
| ERUnlock                   (* sm.RUnlock() *)
| EMapRead                   (* a lookup, len or range of peerMap *)
| EMapSet (k v : string)     (* peerMap[k] = v *)
| EMapDelete (k : string)    (* delete(peerMap, k) *)
| ELog (args : list logarg)  (* log.Println(args...) *)
| EWrite (bytes : string)    (* s.Write(bytes) *)
| EReset                     (* s.Reset() *)
| EConnect (id : string)     (* node.Connect(ctx, ai) *)
| ENewStream (id protocol : string) (* node.NewStream(ctx, id, protocol) *)
| ERefresh                   (* kadDHT.RefreshRoutingTable() *)
| ESleep (seconds : Z).      (* time.Sleep *)

(** ** The outside world

    What the package consumes from libp2p, go-multiaddr, kad-dht,
    encoding/json and the Go runtime.  [World] is the state of everything
    outside the process; the operations that depend on it thread it. *)
Class Externals : Type := {
  Multiaddr : Type;
  World : Type;
  (* multiaddr.NewMultiaddr(text) *)
  multiaddr_NewMultiaddr : string → result Multiaddr;
  (* peer.AddrInfoFromP2pAddr(ma) *)
  peer_AddrInfoFromP2pAddr : Multiaddr → result (AddrInfo Multiaddr);
  (* node.Connect(ctx, ai) *)
  host_Connect : AddrInfo Multiaddr → World → option error * World;
  (* node.NewStream(ctx, id, protocol) *)
  host_NewStream : string → string → World → result Stream * World;
  (* kadDHT.RefreshRoutingTable(); the channel it returns is dropped *)
  dht_RefreshRoutingTable : World → World;
  (* kadDHT.RoutingTable().ListPeers(), each ID in its String() form *)
  dht_ListPeers : World → list string;
  (* json.Marshal of a []string and json.Unmarshal into a []string *)
  json_Marshal : list string → result string;
  json_Unmarshal : string → result (list string);
  (* the order in which one [for k, v := range m] visits the entries of m:
     unspecified, but every entry is visited exactly once *)
  map_range : gmap string string → list (string * string);
  map_range_perm : ∀ m, map_range m ≡ₚ map_to_list m;
}.

(** ** The monad of the package's functions *)

Section monad.
Context `{Externals}.

(** The package-level variables [peerMap] (or [peerIpfsMap]) and the world
    behind [node] and [kadDHT]. *)
Record node : Type := mkNode {
  peerMap : gmap string string;
  world : World;
}.

Definition M (A : Type) : Type := node → A * node * list event.

Definition ret {A} (a : A) : M A := λ n, (a, n, []).

Definition bind {A B} (c : M A) (k : A → M B) : M B :=
  λ n, let '(a, n1, t1) := c n in
       let '(b, n2, t2) := k a n1 in
       (b, n2, t1 ++ t2).

#[global] Instance M_ret : MRet M := @ret.
#[global] Instance M_bind : MBind M := λ A B k c, bind c k.

Definition emit (e : event) : M unit := λ n, (tt, n, [e]).

(** *** Steps *)

Definition sm_Lock : M unit := emit ELock.
Definition sm_Unlock : M unit := emit EUnlock.
Definition sm_RLock : M unit := emit ERLock.
Definition sm_RUnlock : M unit := emit ERUnlock.

(** [_, exists := peerMap[k]] *)
Definition peerMap_lookup (k : string) : M (option string) :=
  λ n, (peerMap n !! k, n, [EMapRead]).

(** [peerMap[k] = v] *)
Definition peerMap_set (k v : string) : M unit :=
  λ n, (tt, mkNode (<[k := v]> (peerMap n)) (world n), [EMapSet k v]).

(** [delete(peerMap, k)] *)
Definition peerMap_delete (k : string) : M unit :=
  λ n, (tt, mkNode (delete k (peerMap n)) (world n), [EMapDelete k]).

(** The entries a [for k, v := range peerMap] is going to visit. *)
Definition peerMap_range : M (list (string * string)) :=
  λ n, (map_range (peerMap n), n, [EMapRead]).

(** [len(peerMap)] *)
Definition peerMap_len : M Z :=
  λ n, (Z.of_nat (size (peerMap n)), n, [EMapRead]).

Definition log_Println (args : list logarg) : M unit := emit (ELog args).

(** [s.Write(bytes)]: the bytes are handed to the stream, which answers
    with its error, if any. *)
Definition stream_Write (s : Stream) (bytes : string) : M (option error) :=
  λ n, (write_err s, n, [EWrite bytes]).

(** [s.Reset()] *)
Definition stream_Reset (s : Stream) : M (option error) :=
  λ n, (reset_err s, n, [EReset]).

(** [node.Connect(ctx, ai)] *)
Definition node_Connect (ai : AddrInfo Multiaddr) : M (option error) :=
  λ n, let '(e, w) := host_Connect ai (world n) in
       (e, mkNode (peerMap n) w, [EConnect (ID ai)]).

(** [node.NewStream(ctx, id, protocol)] *)
Definition node_NewStream (id protocol : string) : M (result Stream) :=
  λ n, let '(r, w) := host_NewStream id protocol (world n) in
       (r, mkNode (peerMap n) w, [ENewStream id protocol]).

(** [kadDHT.RefreshRoutingTable()] *)
Definition kadDHT_RefreshRoutingTable : M unit :=
  λ n, (tt, mkNode (peerMap n) (dht_RefreshRoutingTable (world n)), [ERefresh]).

(** [kadDHT.RoutingTable().ListPeers()] *)
Definition kadDHT_ListPeers : M (list string) :=
  λ n, (dht_ListPeers (world n), n, []).

Definition time_Sleep (seconds : Z) : M unit := emit (ESleep seconds).

(** The map after running [c], and the steps [c] took. *)
Definition map_after {A} (c : M A) (n : node) : gmap string string := peerMap (c n).1.2.
Definition trace {A} (c : M A) (n : node) : list event := (c n).2.
Definition value {A} (c : M A) (n : node) : A := (c n).1.1.

(** *** Functions shared by the two variants *)

(** [textToAddrInfo]: a connect string to a peer ID and its addresses. *)
Definition textToAddrInfo (text : string) : result (AddrInfo Multiaddr) :=
  match multiaddr_NewMultiaddr text with
  | Err e => Err e
  | Ok ma =>
      match peer_AddrInfoFromP2pAddr ma with
      | Err e => Err e
      | Ok ai => Ok ai
      end
  end.

End monad.

(** ** Identity: [rsaKey]

    The same function in both variants.  What it consumes from [os],
    [ioutil], [crypto/rand] and libp2p's [crypto]: [Disk] is the state of
    the file system and of the entropy source.  A Go call that returns
    [(v, err)] is a pair here, because [rsaKey] drops most of the errors and
    keeps the values; a key that is [nil] is [None]. *)
Class KeyStore : Type := {
  Disk : Type;
  PrivKey : Type;
  PubKey : Type;
  (* the error of os.Stat(dir) *)
  os_Stat : string → Disk → option error;
  os_IsNotExist : option error → bool;
  os_MkdirAll : string → Disk → option error * Disk;
  crypto_GenerateKeyPairWithReader : Disk → (option PrivKey * option PubKey * option error) * Disk;
  crypto_MarshalPrivateKey : option PrivKey → string * option error;
  crypto_MarshalPublicKey : option PubKey → string * option error;
  ioutil_WriteFile : string → string → Disk → option error * Disk;
  ioutil_ReadFile : string → Disk → string * option error;
  crypto_UnmarshalPrivateKey : string → option PrivKey * option error;
  crypto_UnmarshalPublicKey : string → option PubKey * option error;
}.

Section identity.
Context `{KeyStore}.

(** What [rsaKey] hands to its caller: the two named results, nothing else. *)
Record keys : Type := mkKeys {
  prKey : option PrivKey;
  puKey : option PubKey;
}.

Definition rsaKey (dir : string) (d : Disk) : keys * Disk * list event :=
  let line := ELog [S_ "密钥文件夹路径:"; S_ dir] in
  let privatePath := strings_Join [dir; "private"] "/" in
  let publicPath := strings_Join [dir; "public"] "/" in
  let e := os_Stat dir d in
  if os_IsNotExist e then
    let '(e, d) := os_MkdirAll dir d in
    match e with
    | Some e => (mkKeys None None, d, [line; ELog [S_ "创建密钥文件夹出错:"; S_ e]])
    | None =>
        let '(prKey, puKey, _, d) := crypto_GenerateKeyPairWithReader d in
        let '(privateKeyBytes, _) := crypto_MarshalPrivateKey prKey in
        let '(_, d) := ioutil_WriteFile privatePath privateKeyBytes d in
        let '(publicKeyBytes, _) := crypto_MarshalPublicKey puKey in
        let '(_, d) := ioutil_WriteFile publicPath publicKeyBytes d in
        (mkKeys prKey puKey, d, [line])
    end
  else
    let '(privateKeyBytes, _) := ioutil_ReadFile privatePath d in
    let '(publicKeyBytes, _) := ioutil_ReadFile publicPath d in
    let '(prKey, _) := crypto_UnmarshalPrivateKey privateKeyBytes in
    let '(puKey, _) := crypto_UnmarshalPublicKey publicKeyBytes in
    (mkKeys prKey puKey, d, [line]).

End identity.

(** * The variant on [/mp2p/bootstrap] *)

Module Bootstrap.
Section defs.
Context `{Externals}.

Definition PROTOCOL_BOOTSTRAP : string := "/mp2p/bootstrap".

(** [readTextFormStream]: one line of the stream, its newline removed. *)
Definition readTextFormStream (s : Stream) : result string :=
  match ReadString LF (incoming s) with
  | Err e => Err e
  | Ok text => Ok (strings_Replace_nl text)
  end.

(** The loop of [handleBootstrapStream] that collects the connect string
    of every entry whose key is not [peerId]. *)
Fixpoint collect_others (peerId : string) (entries : list (string * string))
    (maArray : list string) : list string :=
  match entries with
  | [] => maArray
  | (k, v) :: rest =>
      if decide (k = peerId) then collect_others peerId rest maArray
      else collect_others peerId rest (maArray ++ [v])
  end.

Definition handleBootstrapStream (s : Stream) : M unit :=
  let peerId := RemotePeer s in
  let peerMa := RemoteMultiaddr s in
  log_Println [S_ "流处:"; S_ peerId; S_ peerMa];;
  match readTextFormStream s with
  | Err e => log_Println [S_ e]
  | Ok text =>
      log_Println [S_ "收到数据:"; S_ text];;
      sm_Lock;;
      (if decide (text ≠ "") then peerMap_set peerId text
       else peerMap_set peerId (strings_Join [peerMa; "/ipfs/"; peerId] ""));;
      sm_Unlock;;
      sm_RLock;;
      entries ← peerMap_range;
      let maArray := collect_others peerId entries [] in
      sm_RUnlock;;
      match (if decide (0 < length maArray)%nat then json_Marshal maArray else Ok "[]") with
      | Err e => log_Println [S_ e]
      | Ok jsonText =>
          e ← stream_Write s (strings_Join [jsonText; nl] "");
          match e with
          | Some e => log_Println [S_ e]
          | None => log_Println [S_ "流处完毕"]
          end
      end
  end.

(** The loop of [bootstrap] over the connect strings the seed returned. *)
Fixpoint connect_each (maArray : list string) : M unit :=
  match maArray with
  | [] => mret tt
  | v :: rest =>
      match textToAddrInfo v with
      | Err e => log_Println [S_ e]
      | Ok addrInfo =>
          e ← node_Connect addrInfo;
          match e with
          | Some e => log_Println [S_ e]
          | None =>
              log_Println [S_ "已连节点:"; S_ v];;
              peerMap_set (ID addrInfo) v
          end
      end;;
      connect_each rest
  end.

Definition bootstrap (natAddr addrText : string) : M (option error) :=
  match textToAddrInfo addrText with
  | Err e => mret (Some e)
  | Ok ai =>
      e ← node_Connect ai;
      match e with
      | Some e => mret (Some e)
      | None =>
          log_Println [S_ "已连启发节点:"; S_ addrText];;
          r ← node_NewStream (ID ai) PROTOCOL_BOOTSTRAP;
          match r with
          | Err e => mret (Some e)
          | Ok s =>
              e ← stream_Write s (strings_Join [natAddr; "/n"] "");
              match e with
              | Some e => mret (Some e)
              | None =>
                  match readTextFormStream s with
                  | Err e => mret (Some e)
                  | Ok text =>
                      log_Println [S_ "启发数据:"; S_ text];;
                      e ← stream_Reset s;
                      match e with
                      | Some e => mret (Some e)
                      | None =>
                          match json_Unmarshal text with
                          | Err e => mret (Some e)
                          | Ok maArray => connect_each maArray;; mret None
                          end
                      end
                  end
              end
          end
      end
  end.

(** The first loop of the background goroutine of [Init]: every peer the
    routing table lists is recorded in [idMap] and, when [peerMap] has no
    entry for it, reported and inserted with an empty connect string. *)
Fixpoint discover (peers : list string) (idMap : gmap string Z) : M (gmap string Z) :=
  match peers with
  | [] => mret idMap
  | peerId :: rest =>
      let idMap := <[peerId := 0%Z]> idMap in
      found ← peerMap_lookup peerId;
      match found with
      | Some _ => mret tt
      | None =>
          log_Println [S_ "发现节点:"; S_ peerId];;
          peerMap_set peerId ""
      end;;
      discover rest idMap
  end.

(** Its second loop: every key of [peerMap] that [idMap] lacks is reported
    and deleted.  [entries] is what the [range] visits; deleting the entry
    being visited leaves the rest of the visit as it was. *)
Fixpoint forget (idMap : gmap string Z) (entries : list (string * string)) : M unit :=
  match entries with
  | [] => mret tt
  | (k, _) :: rest =>
      match idMap !! k with
      | Some _ => mret tt
      | None =>
          log_Println [S_ "失去节点:"; S_ k];;
          peerMap_delete k
      end;;
      forget idMap rest
  end.

(** One round of the [for] loop of the background goroutine of [Init]. *)
Definition reconcile : M unit :=
  kadDHT_RefreshRoutingTable;;
  sm_Lock;;
  peers ← kadDHT_ListPeers;
  idMap ← discover peers ∅;
  entries ← peerMap_range;
  forget idMap entries;;
  n ← peerMap_len;
  log_Println [S_ "DHT节点数量:"; I_ n];;
  sm_Unlock;;
  time_Sleep 6.

(** The lines the goroutine logs for a peer that joined and for one that
    left. *)
Definition joined (peerId : string) : event := ELog [S_ "发现节点:"; S_ peerId].
Definition departed (peerId : string) : event := ELog [S_ "失去节点:"; S_ peerId].

(** The part of [Init] that runs the client: with a seed address it
    bootstraps once and logs the error, if any (lines 294-300). *)
Definition Init_bootstrap (natAddr bootstrapAddr : string) : M unit :=
  if decide (bootstrapAddr ≠ "") then
    e ← bootstrap natAddr bootstrapAddr;
    match e with
    | Some e => log_Println [S_ e]
    | None => mret tt
    end
  else mret tt.

End defs.
End Bootstrap.

(** * The variant on [/p2p/dht] *)

Module Dht.
Section defs.
Context `{Externals}.

Definition PROTOCOL_ID : string := "/p2p/dht".

(** The loop of [handleStream] over [peerIpfsMap]. *)
Fixpoint collect_others (streamPeerId : string) (entries : list (string * string))
    (idArray : list string) : list string :=
  match entries with
  | [] => idArray
  | (k, v) :: rest =>
      if decide (k = streamPeerId) then collect_others streamPeerId rest idArray
      else collect_others streamPeerId rest (idArray ++ [v])
  end.

Definition handleStream (stream : Stream) : M unit :=
  let streamPeerId := RemotePeer stream in
  let streamPeerMa := RemoteMultiaddr stream in
  log_Println [S_ "流处:"; S_ streamPeerId; S_ streamPeerMa];;
  match ReadString LF (incoming stream) with
  | Err e => log_Println [S_ e]
  | Ok txt =>
      let txt := strings_Replace_nl txt in
      log_Println [S_ txt];;
      if decide (txt = "引导") then
        sm_Lock;;
        peerMap_set streamPeerId (strings_Join [streamPeerMa; "/ipfs/"; streamPeerId] "");;
        sm_Unlock;;
        sm_RLock;;
        entries ← peerMap_range;
        let idArray := collect_others streamPeerId entries [] in
        sm_RUnlock;;
        match (if decide (0 < length idArray)%nat then json_Marshal idArray else Ok "[]") with
        | Err e => log_Println [S_ e]
        | Ok jsonText =>
            e ← stream_Write stream (strings_Join [jsonText; nl] "");
            match e with
            | Some e => log_Println [S_ e]
            | None => mret tt
            end
        end
      else if decide (txt = "你好") then
        e ← stream_Write stream ("Fine!" +:+ nl);
        match e with
        | Some e => log_Println [S_ e]
        | None => mret tt
        end
      else mret tt
  end.

(** The loop of [updatePeer]. *)
Fixpoint update_each (maTextArray : list string) : M unit :=
  match maTextArray with
  | [] => mret tt
  | v :: rest =>
      match textToAddrInfo v with
      | Err e => log_Println [S_ e]
      | Ok addrInfo => peerMap_set (ID addrInfo) v
      end;;
      update_each rest
  end.

Definition updatePeer (jsonText : string) : M unit :=
  match json_Unmarshal jsonText with
  | Err e => log_Println [S_ e]
  | Ok maTextArray => update_each maTextArray
  end.

Definition bootstrap (maText : string) : M (option error) :=
  match textToAddrInfo maText with
  | Err e => mret (Some e)
  | Ok ai =>
      e ← node_Connect ai;
      match e with
      | Some e => mret (Some e)
      | None =>
          log_Println [S_ "已经连接启发节点:"; S_ maText];;
          r ← node_NewStream (ID ai) PROTOCOL_ID;
          match r with
          | Err e => mret (Some e)
          | Ok s =>
              e ← stream_Write s ("引导" +:+ nl);
              match e with
              | Some e => mret (Some e)
              | None =>
                  match ReadString LF (incoming s) with
                  | Err e => mret (Some e)
                  | Ok txt =>
                      let txt := strings_Replace_nl txt in
                      log_Println [S_ "拿到引导数据:"; S_ txt];;
                      e ← stream_Reset s;
                      match e with
                      | Some e => mret (Some e)
                      | None => updatePeer txt;; mret None
                      end
                  end
              end
          end
      end
  end.

(** [sayHi]; of the [*peer.AddrInfo] its first line prints, the ID is
    kept. *)
Definition sayHi (maText : string) : M unit :=
  match textToAddrInfo maText with
  | Err e => mret tt
  | Ok ai =>
      log_Println [S_ "问候:"; S_ (ID ai)];;
      e ← node_Connect ai;
      match e with
      | Some e => mret tt
      | None =>
          log_Println [S_ "已经连接启发节点:"; S_ maText];;
          r ← node_NewStream (ID ai) PROTOCOL_ID;
          match r with
          | Err e => log_Println [S_ e]
          | Ok s =>
              e ← stream_Write s ("你好" +:+ nl);
              match e with
              | Some e => log_Println [S_ e]
              | None =>
                  match ReadString LF (incoming s) with
                  | Err e => log_Println [S_ e]
                  | Ok txt =>
                      let txt := strings_Replace_nl txt in
                      log_Println [S_ "Hi收到回复:"; S_ txt];;
                      e ← stream_Reset s;
                      match e with
                      | Some e => log_Println [S_ e]
                      | None => mret tt
                      end
                  end
              end
          end
      end
  end.

(** The loop of [Init] that greets every peer of the map. *)
Fixpoint sayHi_each (values : list string) : M unit :=
  match values with
  | [] => mret tt
  | v :: rest => sayHi v;; sayHi_each rest
  end.

(** The part of [Init] that runs the client: with a seed address it
    bootstraps once, logs the error, if any, and then greets every peer of
    the map (lines 648-659). *)
Definition Init_bootstrap (bootstrapText : string) : M unit :=
  if decide (bootstrapText ≠ "") then
    e ← bootstrap bootstrapText;
    match e with
    | Some e => log_Println [S_ e]
    | None => mret tt
    end;;
    entries ← peerMap_range;
    sayHi_each entries.*2
  else mret tt.

(** The loop of the background goroutine of [Init] over the listed peers. *)
Fixpoint show_each (peers : list string) : M unit :=
  match peers with
  | [] => mret tt
  | peerId :: rest => log_Println [S_ "DHT节点:"; S_ peerId];; show_each rest
  end.

(** One round of the [for] loop of the background goroutine of [Init]
    (lines 663-672). *)
Definition show_round : M unit :=
  kadDHT_RefreshRoutingTable;;
  peers ← kadDHT_ListPeers;
  show_each peers;;
  log_Println [S_ "---"];;
  time_Sleep 6.

End defs.
End Dht.

(** * The locking discipline of [sm]

    What one goroutine holds of the read/write lock while it runs, and
    whether each access to the map happens under the lock it needs: a read
    under the shared or the exclusive lock, a write or a delete under the
    exclusive one. *)
Inductive lock_state : Type := Unlocked | ReadLocked | WriteLocked.

Definition lock_step (st : lock_state) (e : event) : option lock_state :=
  match e with
  | ELock => match st with Unlocked => Some WriteLocked | _ => None end
  | EUnlock => match st with WriteLocked => Some Unlocked | _ => None end
  | ERLock => match st with Unlocked => Some ReadLocked | _ => None end
  | ERUnlock => match st with ReadLocked => Some Unlocked | _ => None end
  | EMapRead => match st with Unlocked => None | _ => Some st end
  | EMapSet _ _ | EMapDelete _ => match st with WriteLocked => Some st | _ => None end
  | _ => Some st
  end.

Fixpoint lock_run (st : lock_state) (t : list event) : option lock_state :=
  match t with
  | [] => Some st
  | e :: t' =>
      match lock_step st e with
      | Some st' => lock_run st' t'
      | None => None
      end
  end.

Definition lock_disciplined (t : list event) : bool :=
  match lock_run Unlocked t with
  | Some Unlocked => true
  | _ => false
  end.

(** The bytes written to a stream, in order. *)
Definition written (t : list event) : list string :=
  omap (λ e, match e with EWrite bytes => Some bytes | _ => None end) t.

(** The last byte of a string, if it has one. *)
Fixpoint last_byte (s : string) : option Ascii.ascii :=
  match s with
  | "" => None
  | String c "" => Some c
  | String _ rest => last_byte rest
  end.

(** * Vocabulary of the statements *)

Section vocabulary.
Context `{Externals}.

(** Every step of [c] satisfies [P], and the map after [c] is related by
    [R] to the map before it, whatever the state [c] starts in. *)
Definition keeps {A} (P : event → Prop) (R : relation (gmap string string))
    (c : M A) : Prop :=
  ∀ n, Forall P (trace c n) ∧ R (peerMap n) (map_after c n).

(** [c] removes no key: the key set after it includes the key set before
    it, and it never executes a [delete]. *)
Definition never_removes {A} (c : M A) : Prop :=
  ∀ n, dom (peerMap n) ⊆ dom (map_after c n) ∧ ∀ k, EMapDelete k ∉ trace c n.

(** What [bootstrap] decodes from the bytes [wire] of the seed's reply:
    [readTextFormStream] followed by [json.Unmarshal]. *)
Definition read_reply (wire : string) : result (list string) :=
  match Bootstrap.readTextFormStream (mkStream "" "" wire None None) with
  | Err e => Err e
  | Ok text => json_Unmarshal text
  end.

End vocabulary.

Definition is_delete (e : event) : bool :=
  match e with EMapDelete _ => true | _ => false end.

Definition is_lock_op (e : event) : bool :=
  match e with ELock | EUnlock | ERLock | ERUnlock => true | _ => false end.

(** Steps that touch neither the lock nor the map. *)
Definition is_io (e : event) : bool :=
  match e with
  | ELock | EUnlock | ERLock | ERUnlock | EMapRead | EMapSet _ _ | EMapDelete _ => false
  | _ => true
  end.

(** The connect strings of the entries of [m] whose key is not [p]. *)
Definition others (p : string) (m : gmap string string) : list string :=
  (map_to_list (delete p m)).*2.

(** Whether the byte [c] occurs in [s]. *)
Fixpoint contains_byte (c : Ascii.ascii) (s : string) : bool :=
  match s with
  | "" => false
  | String c' rest => Ascii.eqb c' c || contains_byte c rest
  end.

(** Steps that go to the network. *)
Definition is_network (e : event) : bool :=
  match e with
  | EWrite _ | EReset | EConnect _ | ENewStream _ _ | ERefresh => true
  | _ => false
  end.

(** No step of [t] goes to the network while the goroutine holds [sm],
    starting from the lock state [st]. *)
Fixpoint network_unlocked (st : lock_state) (t : list event) : bool :=
  match t with
  | [] => true
  | e :: t' =>
      match lock_step st e with
      | Some st' =>
          (if is_network e then match st with Unlocked => true | _ => false end else true)
          && network_unlocked st' t'
      | None => false
      end
  end.

(** The lines logged, in order. *)
Definition logged (t : list event) : list (list logarg) :=
  omap (λ e, match e with ELog args => Some args | _ => None end) t.

(** The keys of [m'] include those of [m]. *)
Definition grows (m m' : gmap string string) : Prop := dom m ⊆ dom m'.

Definition any_map (m m' : gmap string string) : Prop := True.

(** * A small world to run the functions in

    Connect strings are texts that start with a slash, and a peer's ID is
    its whole connect string; a peer is reachable unless the world lists
    it as unreachable; the seed answers every stream with [seed_reply];
    JSON arrays hold strings without escapes. *)
Module Demo.

Record net : Type := mkNet {
  unreachable : list string;
  seed_reply : string;
  routing : list string;
}.

Definition dquote : Ascii.ascii := Ascii.ascii_of_nat 34.

Definition quote (s : string) : string := String dquote (s +:+ String dquote "").

Definition Marshal (l : list string) : result string :=
  Ok ("[" +:+ strings_Join (quote <$> l) "," +:+ "]").

Fixpoint elements (s : string) (cur : option string) (acc : list string)
    : result (list string) :=
  match s with
  | "" => Err "unexpected end of JSON input"
  | String c rest =>
      match cur with
      | Some part =>
          if Ascii.eqb c dquote then elements rest None (acc ++ [part])
          else elements rest (Some (part +:+ String c "")) acc
      | None =>
          if Ascii.eqb c dquote then elements rest (Some "") acc
          else if Ascii.eqb c ","%char then elements rest None acc
          else if Ascii.eqb c "]"%char then
            match rest with "" => Ok acc | _ => Err "invalid character after top-level value" end
          else Err "invalid character"
      end
  end.

Definition Unmarshal (s : string) : result (list string) :=
  match s with
  | String "[" rest => elements rest None []
  | _ => Err "cannot unmarshal into Go value of type []string"
  end.

Definition NewMultiaddr (text : string) : result string :=
  match text with
  | String "/" _ => Ok text
  | _ => Err "failed to parse multiaddr"
  end.

#[export] Instance externals : Externals := {|
  Multiaddr := string;
  World := net;
  multiaddr_NewMultiaddr := NewMultiaddr;
  peer_AddrInfoFromP2pAddr := λ ma, Ok (mkAddrInfo ma [ma]);
  host_Connect := λ ai w,
    (if decide (ID ai ∈ unreachable w) then Some "dial failed" else None, w);
  host_NewStream := λ id protocol w, (Ok (mkStream id id (seed_reply w) None None), w);
  dht_RefreshRoutingTable := λ w, w;
  dht_ListPeers := routing;
  json_Marshal := Marshal;
  json_Unmarshal := Unmarshal;
  map_range := map_to_list;
  map_range_perm := λ m, Permutation_refl (map_to_list m);
|}.

(** A key directory that is either missing or holds the two files; keys
    are their own serialization. *)
Record disk : Type := mkDisk {
  present : bool;
  read_only : bool;
  private_file : option string;
  public_file : option string;
}.

Definition decode (bytes : string) : option string * option error :=
  match bytes with
  | String "k" _ => (Some bytes, None)
  | _ => (None, Some "malformed key")
  end.

#[export] Instance keystore : KeyStore := {|
  Disk := disk;
  PrivKey := string;
  PubKey := string;
  os_Stat := λ dir d, if present d then None else Some "no such file or directory";
  os_IsNotExist := λ e, match e with Some _ => true | None => false end;
  os_MkdirAll := λ dir d,
    if read_only d then (Some "read-only file system", d)
    else (None, mkDisk true false None None);
  crypto_GenerateKeyPairWithReader := λ d, (Some "k-private", Some "k-public", None, d);
  crypto_MarshalPrivateKey := λ k, (default "" k, None);
  crypto_MarshalPublicKey := λ k, (default "" k, None);
  ioutil_WriteFile := λ path bytes d, (None, d);
  ioutil_ReadFile := λ path d,
    match (if decide (path = "./config/rsa/private") then private_file d else public_file d) with
    | Some bytes => (bytes, None)
    | None => ("", Some "no such file or directory")
    end;
  crypto_UnmarshalPrivateKey := decode;
  crypto_UnmarshalPublicKey := decode;
|}.


(** Inputs. *)

Definition line (text : string) : string := text +:+ nl.

Definition reply (l : list string) : string :=
  match Marshal l with
  | Ok jsonText => line jsonText
  | Err _ => ""
  end.

(** A node that knows nobody, in a world where nobody is listed. *)
Definition lonely : node := mkNode ∅ (mkNet [] "" []).

(** A node that knows two peers. *)
Definition seed : node :=
  mkNode (<["QmA" := "/ip4/10.0.0.1/udp/4001/quic/ipfs/QmA"]>
            (<["QmP" := "/stale"]> ∅))
         (mkNet [] "" []).

(** A node whose seed answers with one reachable peer, one malformed entry
    and one unreachable peer. *)
Definition joining : node :=
  mkNode ∅ (mkNet ["/b"] (reply ["/a"; "bad"; "/b"]) []).

(** A node whose seed answers with one unreachable peer. *)
Definition unlucky : node :=
  mkNode ∅ (mkNet ["/b"] (reply ["/b"]) []).

(** A node that knows [/old] and [/kept] while the routing table lists
    [/kept] and [/new]. *)
Definition drifting : node :=
  mkNode (<["/old" := "/old"]> (<["/kept" := "/kept"]> ∅))
         (mkNet [] "" ["/kept"; "/new"]).

(** Streams opened by the peer [QmP]: one carrying a connect string, one
    carrying the discovery marker, one carrying neither marker. *)
Definition announcing : Stream :=
  mkStream "QmP" "/ip4/10.0.0.2/udp/4001/quic" (line "/ip4/1.2.3.4/udp/9/quic/ipfs/QmP")
    None None.

Definition asking : Stream :=
  mkStream "QmP" "/ip4/10.0.0.2/udp/4001/quic" (line "引导") None None.

Definition chatting : Stream :=
  mkStream "QmP" "/ip4/10.0.0.2/udp/4001/quic" (line "ping") None None.

(** A stream that ends before a newline, and one carrying the greeting. *)
Definition silent : Stream :=
  mkStream "QmP" "/ip4/10.0.0.2/udp/4001/quic" "abc" None None.

Definition greeting : Stream :=
  mkStream "QmP" "/ip4/10.0.0.2/udp/4001/quic" (line "你好") None None.

(** A node whose map agrees with the routing table, and one whose seed
    answers with something that is not JSON. *)
Definition settled : node :=
  mkNode (<["/x" := "/x"]> (<["/y" := ""]> ∅)) (mkNet [] "" ["/y"; "/x"; "/y"]).

Definition confused : node := mkNode ∅ (mkNet [] (line "garbage") []).

(** Key directories: missing on a read-only file system, and present with
    a damaged private key. *)
Definition read_only_disk : disk := mkDisk false true None None.
Definition damaged_disk : disk := mkDisk true false (Some "garbage") (Some "k-public").
Definition fresh_disk : disk := mkDisk false false None None.

End Demo.

(** * Laws of the monad *)

Section monad_laws.
Context `{Externals}.

Lemma run_bind {A B} (c : M A) (k : A → M B) (n : node) :
  (c ≫= k) n = let '(a, n1, t1) := c n in
               let '(b, n2, t2) := k a n1 in (b, n2, t1 ++ t2).
Proof. reflexivity. Qed.

Lemma run_ret {A} (a : A) (n : node) : (mret a : M A) n = (a, n, []).
Proof. reflexivity. Qed.

Lemma trace_bind {A B} (c : M A) (k : A → M B) (n : node) :
  trace (c ≫= k) n = trace c n ++ trace (k (value c n)) (c n).1.2.
Proof.
  unfold trace, value. rewrite run_bind.
  destruct (c n) as [[a n1] t1]. cbn. by destruct (k a n1) as [[b n2] t2].
Qed.

Lemma map_after_bind {A B} (c : M A) (k : A → M B) (n : node) :
  map_after (c ≫= k) n = map_after (k (value c n)) (c n).1.2.
Proof.
  unfold map_after, value. rewrite run_bind.
  destruct (c n) as [[a n1] t1]. cbn. by destruct (k a n1) as [[b n2] t2].
Qed.

Section keeps.
Context (P : event → Prop) (R : relation (gmap string string)) `{!PreOrder R}.

Lemma keeps_ret {A} (a : A) : keeps P R (mret a : M A).
Proof. intros n. split; [constructor|]. cbn. reflexivity. Qed.

Lemma keeps_bind {A B} (c : M A) (k : A → M B) :
  keeps P R c → (∀ a, keeps P R (k a)) → keeps P R (c ≫= k).
Proof.
  intros Hc Hk n. rewrite trace_bind, map_after_bind.
  destruct (Hc n) as [Ht HR]. destruct (Hk (value c n) (c n).1.2) as [Ht' HR'].
  split; [by apply Forall_app|]. etrans; [exact HR|exact HR'].
Qed.

Lemma keeps_emit e : P e → keeps P R (emit e).
Proof. intros He n. split; [by repeat constructor|]. cbn. reflexivity. Qed.

Lemma keeps_lookup k : P EMapRead → keeps P R (peerMap_lookup k).
Proof. intros He n. split; [by repeat constructor|]. cbn. reflexivity. Qed.

Lemma keeps_range : P EMapRead → keeps P R peerMap_range.
Proof. intros He n. split; [by repeat constructor|]. cbn. reflexivity. Qed.

Lemma keeps_len : P EMapRead → keeps P R peerMap_len.
Proof. intros He n. split; [by repeat constructor|]. cbn. reflexivity. Qed.

Lemma keeps_set k v :
  P (EMapSet k v) → (∀ m, R m (<[k := v]> m)) → keeps P R (peerMap_set k v).
Proof. intros He Hm n. split; [by repeat constructor|]. cbn. apply Hm. Qed.

Lemma keeps_delete k :
  P (EMapDelete k) → (∀ m, R m (delete k m)) → keeps P R (peerMap_delete k).
Proof. intros He Hm n. split; [by repeat constructor|]. cbn. apply Hm. Qed.

Lemma keeps_Write s bytes : P (EWrite bytes) → keeps P R (stream_Write s bytes).
Proof. intros He n. split; [by repeat constructor|]. cbn. reflexivity. Qed.

Lemma keeps_Reset s : P EReset → keeps P R (stream_Reset s).
Proof. intros He n. split; [by repeat constructor|]. cbn. reflexivity. Qed.

Lemma keeps_Connect ai : P (EConnect (ID ai)) → keeps P R (node_Connect ai).
Proof.
  intros He n. unfold trace, map_after, node_Connect.
  destruct (host_Connect ai (world n)) as [e w]. cbn.
  split; [by repeat constructor|]. reflexivity.
Qed.

Lemma keeps_NewStream id protocol :
  P (ENewStream id protocol) → keeps P R (node_NewStream id protocol).
Proof.
  intros He n. unfold trace, map_after, node_NewStream.
  destruct (host_NewStream id protocol (world n)) as [r w]. cbn.
  split; [by repeat constructor|]. reflexivity.
Qed.

Lemma keeps_Refresh : P ERefresh → keeps P R kadDHT_RefreshRoutingTable.
Proof. intros He n. split; [by repeat constructor|]. cbn. reflexivity. Qed.

Lemma keeps_ListPeers : keeps P R kadDHT_ListPeers.
Proof. intros n. split; [constructor|]. cbn. reflexivity. Qed.

End keeps.
End monad_laws.

Ltac run := repeat (rewrite ?run_bind, ?run_ret; cbn).

(** Splits a [keeps] goal along the structure of the computation. *)
Ltac keeps_step :=
  lazymatch goal with
  | |- keeps _ _ (mbind _ _) => apply keeps_bind; [try apply _ | | intros ?]
  | |- keeps _ _ (mret _) => apply keeps_ret; try apply _
  | |- keeps _ _ (log_Println _) => apply keeps_emit; try apply _
  | |- keeps _ _ (time_Sleep _) => apply keeps_emit; try apply _
  | |- keeps _ _ sm_Lock => apply keeps_emit; try apply _
  | |- keeps _ _ sm_Unlock => apply keeps_emit; try apply _
  | |- keeps _ _ sm_RLock => apply keeps_emit; try apply _
  | |- keeps _ _ sm_RUnlock => apply keeps_emit; try apply _
  | |- keeps _ _ (peerMap_lookup _) => apply keeps_lookup; try apply _
  | |- keeps _ _ peerMap_range => apply keeps_range; try apply _
  | |- keeps _ _ peerMap_len => apply keeps_len; try apply _
  | |- keeps _ _ (peerMap_set _ _) => apply keeps_set; try apply _
  | |- keeps _ _ (peerMap_delete _) => apply keeps_delete; try apply _
  | |- keeps _ _ (stream_Write _ _) => apply keeps_Write; try apply _
  | |- keeps _ _ (stream_Reset _) => apply keeps_Reset; try apply _
  | |- keeps _ _ (node_Connect _) => apply keeps_Connect; try apply _
  | |- keeps _ _ (node_NewStream _ _) => apply keeps_NewStream; try apply _
  | |- keeps _ _ kadDHT_RefreshRoutingTable => apply keeps_Refresh; try apply _
  | |- keeps _ _ kadDHT_ListPeers => apply keeps_ListPeers; try apply _
  | |- keeps _ _ (match ?x with _ => _ end) => destruct x
  end.

(** * Growth: what never removes a key *)

#[global] Instance grows_preorder : PreOrder grows.
Proof. unfold grows. split; [intros m; set_solver | intros a b c; set_solver]. Qed.

#[global] Instance any_map_preorder : PreOrder any_map.
Proof. by split. Qed.

Section growth.
Context `{Externals}.

Lemma grows_insert k v (m : gmap string string) : grows m (<[k := v]> m).
Proof. unfold grows. rewrite dom_insert_L. set_solver. Qed.

Lemma connect_each_keeps (P : event → Prop) R `{!PreOrder R} :
  (∀ id, P (EConnect id)) → (∀ args, P (ELog args)) → (∀ k v, P (EMapSet k v)) →
  (∀ k v m, R m (<[k := v]> m)) →
  ∀ maArray, keeps P R (Bootstrap.connect_each maArray).
Proof.
  intros Hc Hl Hs Hm maArray.
  induction maArray as [|v rest IH]; cbn [Bootstrap.connect_each].
  - by apply keeps_ret.
  - repeat keeps_step; auto.
Qed.

Lemma update_each_keeps (P : event → Prop) R `{!PreOrder R} :
  (∀ args, P (ELog args)) → (∀ k v, P (EMapSet k v)) →
  (∀ k v m, R m (<[k := v]> m)) →
  ∀ maTextArray, keeps P R (Dht.update_each maTextArray).
Proof.
  intros Hl Hs Hm l. induction l as [|v rest IH]; cbn [Dht.update_each].
  - by apply keeps_ret.
  - repeat keeps_step; auto.
Qed.

Lemma updatePeer_keeps (P : event → Prop) R `{!PreOrder R} jsonText :
  (∀ args, P (ELog args)) → (∀ k v, P (EMapSet k v)) →
  (∀ k v m, R m (<[k := v]> m)) →
  keeps P R (Dht.updatePeer jsonText).
Proof.
  intros Hl Hs Hm. unfold Dht.updatePeer.
  destruct (json_Unmarshal jsonText); [by apply update_each_keeps|].
  by apply keeps_emit.
Qed.

Lemma handleBootstrapStream_grows s :
  keeps (λ e, is_delete e = false) grows (Bootstrap.handleBootstrapStream s).
Proof.
  unfold Bootstrap.handleBootstrapStream.
  repeat keeps_step; try done; intros; apply grows_insert.
Qed.

Lemma handleStream_grows stream :
  keeps (λ e, is_delete e = false) grows (Dht.handleStream stream).
Proof.
  unfold Dht.handleStream.
  repeat keeps_step; try done; intros; apply grows_insert.
Qed.

Lemma bootstrap_v1_grows natAddr addrText :
  keeps (λ e, is_delete e = false) grows (Bootstrap.bootstrap natAddr addrText).
Proof.
  unfold Bootstrap.bootstrap.
  repeat first [keeps_step | apply connect_each_keeps; try apply _];
    try done; intros; apply grows_insert.
Qed.

Lemma updatePeer_grows jsonText :
  keeps (λ e, is_delete e = false) grows (Dht.updatePeer jsonText).
Proof. apply updatePeer_keeps; try apply _; try done. intros; apply grows_insert. Qed.

Lemma bootstrap_v2_grows maText :
  keeps (λ e, is_delete e = false) grows (Dht.bootstrap maText).
Proof.
  unfold Dht.bootstrap.
  repeat first [keeps_step | apply updatePeer_keeps; try apply _];
    try done; intros; apply grows_insert.
Qed.

Lemma sayHi_keeps_map maText :
  keeps (λ e, is_delete e = false) eq (Dht.sayHi maText).
Proof. unfold Dht.sayHi. repeat keeps_step; done. Qed.

Lemma keeps_never_removes {A} (c : M A) :
  keeps (λ e, is_delete e = false) grows c → never_removes c.
Proof.
  intros Hc n. destruct (Hc n) as [Hall Hg]. split; [exact Hg|].
  intros k Hin. rewrite Forall_forall in Hall. by specialize (Hall _ Hin).
Qed.

(** C9: the inbound handlers, the bootstrap clients, [updatePeer] and
    [sayHi] never remove a key of the membership map: after any of them the
    key set includes the key set before, and none of them executes a
    [delete].  (The reconciliation round is the one place that deletes.) *)
Theorem membership_shrinks_only_in_reconcile :
  (∀ s, never_removes (Bootstrap.handleBootstrapStream s)) ∧
  (∀ natAddr addrText, never_removes (Bootstrap.bootstrap natAddr addrText)) ∧
  (∀ stream, never_removes (Dht.handleStream stream)) ∧
  (∀ jsonText, never_removes (Dht.updatePeer jsonText)) ∧
  (∀ maText, never_removes (Dht.bootstrap maText)) ∧
  (∀ maText, never_removes (Dht.sayHi maText)).
Proof.
  split; [intros; apply keeps_never_removes, handleBootstrapStream_grows|].
  split; [intros; apply keeps_never_removes, bootstrap_v1_grows|].
  split; [intros; apply keeps_never_removes, handleStream_grows|].
  split; [intros; apply keeps_never_removes, updatePeer_grows|].
  split; [intros; apply keeps_never_removes, bootstrap_v2_grows|].
  intros maText. apply keeps_never_removes. intros n.
  destruct (sayHi_keeps_map maText n) as [Ht Hm].
  split; [done|]. unfold grows. by rewrite <-Hm.
Qed.

End growth.

(** * The reconciliation round *)

Section reconcile.
Context `{Externals}.
Import Bootstrap.

Lemma discover_new p rest idMap n :
  peerMap n !! p = None →
  discover (p :: rest) idMap n =
    let '(r, n', t) := discover rest (<[p := 0%Z]> idMap)
                         (mkNode (<[p := ""]> (peerMap n)) (world n)) in
    (r, n', EMapRead :: joined p :: EMapSet p "" :: t).
Proof.
  intros Hp. cbn [discover]. run. rewrite Hp. run.
  destruct (discover rest _ _) as [[r n'] t]. reflexivity.
Qed.

Lemma discover_old p v rest idMap n :
  peerMap n !! p = Some v →
  discover (p :: rest) idMap n =
    let '(r, n', t) := discover rest (<[p := 0%Z]> idMap) n in
    (r, n', EMapRead :: t).
Proof.
  intros Hp. cbn [discover]. run. rewrite Hp. run.
  destruct (discover rest _ _) as [[r n'] t]. reflexivity.
Qed.

Lemma discover_spec peers : ∀ idMap n,
  ∃ idMap' m' t, discover peers idMap n = (idMap', mkNode m' (world n), t) ∧
    dom idMap' = dom idMap ∪ list_to_set peers ∧
    (∀ k, m' !! k = if decide (k ∈ peers) then Some (default "" (peerMap n !! k)) else peerMap n !! k) ∧
    (∀ k, joined k ∈ t ↔ k ∈ peers ∧ peerMap n !! k = None) ∧
    (∀ k v, EMapSet k v ∈ t ↔ v = "" ∧ k ∈ peers ∧ peerMap n !! k = None) ∧
    (∀ e, e ∈ t → e = EMapRead ∨ ∃ k, e = joined k ∨ e = EMapSet k "").
Proof.
  induction peers as [|p rest IH]; intros idMap n.
  - exists idMap, (peerMap n), []. destruct n. cbn. split; [done|].
    split; [set_solver|]. split; [intros k; case_decide; set_solver|].
    split; [set_solver|]. split; [set_solver|]. set_solver.
  - destruct (peerMap n !! p) as [v|] eqn:Hp.
    + rewrite (discover_old _ _ _ _ _ Hp).
      destruct (IH (<[p:=0%Z]> idMap) n) as (i' & m' & t & -> & Hd & Hm & Hj & Hs & He).
      exists i', m', (EMapRead :: t). split; [done|].
      split; [rewrite Hd, dom_insert_L; set_solver|].
      split.
      { intros k. rewrite Hm. destruct (decide (k = p)) as [->|].
        - rewrite Hp. repeat case_decide; set_solver.
        - repeat case_decide; set_solver. }
      split.
      { intros k. rewrite elem_of_cons, Hj. unfold joined. 
        split; [intros [|[]]; [done|set_solver] | intros [[->|]%elem_of_cons ?]; [congruence|auto]]. }
      split.
      { intros k v'. rewrite elem_of_cons, Hs.
        split; [intros [|(?&?&?)]; [done|set_solver] | intros (?&[->|]%elem_of_cons&?); [congruence|auto]]. }
      intros e [->|?]%elem_of_cons; auto.
    + rewrite (discover_new _ _ _ _ Hp).
      destruct (IH (<[p:=0%Z]> idMap) (mkNode (<[p:=""]> (peerMap n)) (world n)))
        as (i' & m' & t & -> & Hd & Hm & Hj & Hs & He). cbn in *.
      exists i', m', (EMapRead :: joined p :: EMapSet p "" :: t). split; [done|].
      split; [rewrite Hd, dom_insert_L; set_solver|].
      split.
      { intros k. rewrite Hm. destruct (decide (k = p)) as [->|].
        - rewrite lookup_insert_eq, Hp. repeat case_decide; set_solver.
        - rewrite lookup_insert_ne by done. repeat case_decide; set_solver. }
      split.
      { intros k. rewrite !elem_of_cons, Hj. unfold joined.
        destruct (decide (k = p)) as [->|].
        - rewrite lookup_insert_eq. split; [intros _; set_solver | auto].
        - rewrite lookup_insert_ne by done.
          split; [intros [|[|[|[]]]]; try done; [congruence|set_solver]|].
          intros [[->|] ?]; [done|auto]. }
      split.
      { intros k v'. rewrite !elem_of_cons, Hs. unfold joined.
        destruct (decide (k = p)) as [->|].
        - rewrite lookup_insert_eq. split; [|intros (->&_); auto].
          intros [|[|[|(?&?&?)]]]; try done. simplify_eq. set_solver.
        - rewrite lookup_insert_ne by done.
          split; [intros [|[|[|(?&?&?)]]]; try done; [congruence|set_solver]
                 | intros (?&[->|]&?); [done|auto 10]]. }
      intros e [->|[->|[->|?]%elem_of_cons]%elem_of_cons]%elem_of_cons; eauto.
Qed.

Lemma forget_keep k v z rest idMap n :
  idMap !! k = Some z →
  forget idMap ((k, v) :: rest) n = forget idMap rest n.
Proof.
  intros Hk. cbn [forget]. run. rewrite Hk. run.
  destruct (forget idMap rest n) as [[r n'] t]. reflexivity.
Qed.

Lemma forget_drop k v rest idMap n :
  idMap !! k = None →
  forget idMap ((k, v) :: rest) n =
    let '(r, n', t) := forget idMap rest (mkNode (delete k (peerMap n)) (world n)) in
    (r, n', departed k :: EMapDelete k :: t).
Proof.
  intros Hk. cbn [forget]. run. rewrite Hk. run.
  destruct (forget idMap rest _) as [[r n'] t]. reflexivity.
Qed.

Lemma forget_spec idMap entries : ∀ n,
  ∃ m' t, forget idMap entries n = (tt, mkNode m' (world n), t) ∧
    (∀ k, m' !! k = if decide (k ∈ entries.*1 ∧ idMap !! k = None) then None
                    else peerMap n !! k) ∧
    (∀ k, departed k ∈ t ↔ k ∈ entries.*1 ∧ idMap !! k = None) ∧
    (∀ k, EMapDelete k ∈ t ↔ k ∈ entries.*1 ∧ idMap !! k = None) ∧
    (∀ e, e ∈ t → ∃ k, e = departed k ∨ e = EMapDelete k).
Proof.
  induction entries as [|[k0 v0] rest IH]; intros n.
  - exists (peerMap n), []. destruct n. cbn. split; [done|].
    split; [intros k; case_decide; set_solver|]. set_solver.
  - destruct (idMap !! k0) as [z|] eqn:Hk0.
    + rewrite (forget_keep _ _ _ _ _ _ Hk0).
      destruct (IH n) as (m' & t & -> & Hm & Hl & Hd & He).
      exists m', t. split; [done|]. cbn [fmap list_fmap fst].
      split.
      { intros k. rewrite Hm. repeat case_decide; try done.
        - set_solver.
        - destruct (decide (k = k0)) as [->|]; [naive_solver|set_solver]. }
      split.
      { intros k. rewrite Hl, elem_of_cons. naive_solver. }
      split; [|done].
      intros k. rewrite Hd, elem_of_cons. naive_solver.
    + rewrite (forget_drop _ _ _ _ _ Hk0).
      destruct (IH (mkNode (delete k0 (peerMap n)) (world n)))
        as (m' & t & -> & Hm & Hl & Hd & He). cbn in *.
      exists m', (departed k0 :: EMapDelete k0 :: t). split; [done|].
      split.
      { intros k. rewrite Hm. destruct (decide (k = k0)) as [->|].
        - rewrite lookup_delete_eq. repeat case_decide; set_solver.
        - rewrite lookup_delete_ne by done. repeat case_decide; set_solver. }
      split.
      { intros k. rewrite !elem_of_cons, Hl. unfold departed. naive_solver. }
      split.
      { intros k. rewrite !elem_of_cons, Hd. unfold departed. naive_solver. }
      intros e [->|[->|?]%elem_of_cons]%elem_of_cons; eauto.
Qed.

Lemma reconcile_run m w :
  let B := dht_ListPeers (dht_RefreshRoutingTable w) in
  ∃ m' t1 t2,
    reconcile (mkNode m w) =
      (tt, mkNode m' (dht_RefreshRoutingTable w),
       [ERefresh; ELock] ++ t1 ++ [EMapRead] ++ t2 ++
       [EMapRead; ELog [S_ "DHT节点数量:"; I_ (Z.of_nat (size m'))]; EUnlock; ESleep 6]) ∧
    (∀ k, m' !! k = if decide (k ∈ B) then Some (default "" (m !! k)) else None) ∧
    (∀ k, joined k ∈ t1 ↔ k ∈ B ∧ m !! k = None) ∧
    (∀ k v, EMapSet k v ∈ t1 ↔ v = "" ∧ k ∈ B ∧ m !! k = None) ∧
    (∀ e, e ∈ t1 → e = EMapRead ∨ ∃ k, e = joined k ∨ e = EMapSet k "") ∧
    (∀ k, departed k ∈ t2 ↔ k ∉ B ∧ is_Some (m !! k)) ∧
    (∀ k, EMapDelete k ∈ t2 ↔ k ∉ B ∧ is_Some (m !! k)) ∧
    (∀ e, e ∈ t2 → ∃ k, e = departed k ∨ e = EMapDelete k).
Proof.
  intros B. unfold reconcile. run. fold B.
  destruct (discover_spec B ∅ (mkNode m (dht_RefreshRoutingTable w)))
    as (idMap & m1 & t1 & -> & Hdom & Hm1 & Hj & Hs & He1). run.
  destruct (forget_spec idMap (map_range m1) (mkNode m1 (dht_RefreshRoutingTable w)))
    as (m2 & t2 & -> & Hm2 & Hl & Hd & He2). cbn in *.
  assert (Hin : ∀ k, k ∈ (map_range m1).*1 ↔ is_Some (m1 !! k)).
  { intros k. rewrite map_range_perm. rewrite list_elem_of_fmap. split.
    - intros ([k' v] & -> & Hkv). apply elem_of_map_to_list in Hkv. eauto.
    - intros [v Hv]. exists (k, v). split; [done|]. by apply elem_of_map_to_list. }
  assert (Hid : ∀ k, idMap !! k = None ↔ k ∉ B).
  { intros k. rewrite <-not_elem_of_dom, Hdom. set_solver. }
  assert (Hgone : ∀ k, k ∈ (map_range m1).*1 ∧ idMap !! k = None ↔ k ∉ B ∧ is_Some (m !! k)).
  { intros k. rewrite Hin, Hid, Hm1. case_decide; naive_solver. }
  exists m2, t1, t2. split.
  { repeat f_equal. }
  split.
  { intros k. rewrite Hm2, Hm1. pose proof (Hgone k) as Hg.
    clear -Hg. destruct (decide (k ∈ B)) as [HB|HB].
    - rewrite decide_False; [done|]. intros Hc. apply Hg in Hc. tauto.
    - destruct (m !! k) as [v|] eqn:Hk; [|by case_decide].
      rewrite decide_True; [done|]. apply Hg. eauto. }
  split; [exact Hj|]. split; [exact Hs|]. split; [exact He1|].
  split; [intros k; rewrite Hl; apply Hgone|].
  split; [intros k; rewrite Hd; apply Hgone|]. exact He2.
Qed.

(** C1: one reconciliation round.  With [B] the peers the routing table
    lists after the refresh and [m] the map before the round, the key set
    after the round is exactly the set of [B]; every ID of [B] that [m]
    lacks is inserted with the empty connect string and reported by the
    "joined" line; every key of [m] that [B] lacks is deleted and reported
    by the "left" line; a key in both keeps its value and is neither
    inserted, deleted nor reported. *)
Theorem reconcile_diff (m : gmap string string) (w : World) :
  let B := dht_ListPeers (dht_RefreshRoutingTable w) in
  let m' := map_after reconcile (mkNode m w) in
  let t := trace reconcile (mkNode m w) in
  dom m' = list_to_set B ∧
  (∀ k, k ∈ B → k ∉ dom m →
        m' !! k = Some "" ∧ EMapSet k "" ∈ t ∧ joined k ∈ t) ∧
  (∀ k, k ∈ dom m → k ∉ B →
        m' !! k = None ∧ EMapDelete k ∈ t ∧ departed k ∈ t) ∧
  (∀ k, k ∈ dom m → k ∈ B →
        m' !! k = m !! k ∧ (∀ v, EMapSet k v ∉ t) ∧ EMapDelete k ∉ t ∧
        joined k ∉ t ∧ departed k ∉ t).
Proof.
  intros B m' t.
  destruct (reconcile_run m w) as (m2 & t1 & t2 & Hrun & Hm & Hj & Hs & He1 & Hl & Hd & He2).
  fold B in Hm, Hj, Hs, Hl, Hd.
  assert (m' = m2) as -> by (unfold m', map_after; by rewrite Hrun).
  assert (t = [ERefresh; ELock] ++ t1 ++ [EMapRead] ++ t2 ++
       [EMapRead; ELog [S_ "DHT节点数量:"; I_ (Z.of_nat (size m2))]; EUnlock; ESleep 6])
    as Ht by (unfold t, trace; by rewrite Hrun).
  assert (Hset : ∀ k v, EMapSet k v ∈ t ↔ EMapSet k v ∈ t1).
  { intros k v. rewrite Ht, !elem_of_app, !elem_of_cons, elem_of_nil. split; [|tauto].
    intros [[|[|]]|[|[[|]|[Hin|[|[|[|[|]]]]]]]]; try done.
    apply He2 in Hin as [k' [|]]; done. }
  assert (Hdel : ∀ k, EMapDelete k ∈ t ↔ EMapDelete k ∈ t2).
  { intros k. rewrite Ht, !elem_of_app, !elem_of_cons, elem_of_nil. split; [|tauto].
    intros [[|[|]]|[Hin|[[|]|[|[|[|[|[|]]]]]]]]; try done.
    apply He1 in Hin as [|[k' [|]]]; done. }
  assert (Hjoin : ∀ k, joined k ∈ t ↔ joined k ∈ t1).
  { intros k. rewrite Ht, !elem_of_app, !elem_of_cons, elem_of_nil. split; [|tauto].
    intros [[|[|]]|[|[[|]|[Hin|[|[|[|[|]]]]]]]]; try done.
    apply He2 in Hin as [k' [|]]; done. }
  assert (Hleft : ∀ k, departed k ∈ t ↔ departed k ∈ t2).
  { intros k. rewrite Ht, !elem_of_app, !elem_of_cons, elem_of_nil. split; [|tauto].
    intros [[|[|]]|[Hin|[[|]|[|[|[|[|[|]]]]]]]]; try done.
    apply He1 in Hin as [|[k' [|]]]; done. }
  split.
  { apply set_eq. intros k. rewrite elem_of_dom, Hm, elem_of_list_to_set.
    case_decide; split; first [done | by intros [? ?] | by eauto]. }
  split.
  { intros k HB Hk. apply not_elem_of_dom in Hk.
    rewrite Hm, decide_True, Hk by done. rewrite Hset, Hs, Hjoin, Hj. auto. }
  split.
  { intros k Hk HB. apply elem_of_dom in Hk.
    rewrite Hm, decide_False by done. rewrite Hdel, Hd, Hleft, Hl. auto. }
  intros k Hk HB. apply elem_of_dom in Hk. destruct Hk as [v Hk].
  rewrite Hm, decide_True, Hk by done. split; [done|].
  split; [intros v'; rewrite Hset, Hs, Hk; naive_solver|].
  split; [rewrite Hdel, Hd; tauto|].
  split; [rewrite Hjoin, Hj, Hk; naive_solver|].
  rewrite Hleft, Hl. tauto.
Qed.


End reconcile.

(** * The inbound handlers *)

Section handlers.
Context `{Externals}.

Lemma collect_others_v1 p entries : ∀ acc,
  Bootstrap.collect_others p entries acc = acc ++ (filter (λ kv, kv.1 ≠ p) entries).*2.
Proof.
  induction entries as [|[k v] rest IH]; intros acc; cbn [Bootstrap.collect_others].
  - by rewrite app_nil_r.
  - rewrite filter_cons. cbn [fst]. destruct (decide (k = p)) as [->|Hk].
    + rewrite decide_False by (intros ?; done). apply IH.
    + rewrite decide_True by done. rewrite IH, <-app_assoc. done.
Qed.

Lemma collect_others_v2 p entries : ∀ acc,
  Dht.collect_others p entries acc = acc ++ (filter (λ kv, kv.1 ≠ p) entries).*2.
Proof.
  induction entries as [|[k v] rest IH]; intros acc; cbn [Dht.collect_others].
  - by rewrite app_nil_r.
  - rewrite filter_cons. cbn [fst]. destruct (decide (k = p)) as [->|Hk].
    + rewrite decide_False by (intros ?; done). apply IH.
    + rewrite decide_True by done. rewrite IH, <-app_assoc. done.
Qed.

Lemma range_others p (m : gmap string string) :
  (filter (λ kv, kv.1 ≠ p) (map_range m)).*2 ≡ₚ others p m.
Proof.
  unfold others. apply fmap_Permutation. rewrite map_range_perm.
  apply NoDup_Permutation.
  - apply NoDup_filter, NoDup_map_to_list.
  - apply NoDup_map_to_list.
  - intros [k v]. rewrite list_elem_of_filter, !elem_of_map_to_list. cbn.
    destruct (decide (k = p)) as [->|Hk].
    + rewrite lookup_delete_eq. naive_solver.
    + rewrite lookup_delete_ne by done. naive_solver.
Qed.

Lemma others_nil p (m : gmap string string) : dom m ⊆ {[p]} → others p m = [].
Proof.
  intros Hdom. unfold others.
  replace (delete p m) with (∅ : gmap string string); [by rewrite map_to_list_empty|].
  symmetry. apply map_empty. intros k. destruct (decide (k = p)) as [->|Hk].
  - apply lookup_delete_eq.
  - rewrite lookup_delete_ne by done. apply not_elem_of_dom. set_solver.
Qed.

(** The bytes a discovery reply puts on the wire for the list [maArray]. *)
Lemma handleBootstrapStream_run s n text :
  Bootstrap.readTextFormStream s = Ok text →
  let p := RemotePeer s in
  let addr := if decide (text ≠ "") then text
              else strings_Join [RemoteMultiaddr s; "/ipfs/"; p] "" in
  let m1 := <[p := addr]> (peerMap n) in
  ∃ maArray tail,
    Bootstrap.handleBootstrapStream s n =
      (tt, mkNode m1 (world n),
       [ELog [S_ "流处:"; S_ p; S_ (RemoteMultiaddr s)]; ELog [S_ "收到数据:"; S_ text];
        ELock; EMapSet p addr; EUnlock; ERLock; EMapRead; ERUnlock] ++ tail) ∧
    maArray ≡ₚ others p m1 ∧
    Forall (λ e, is_io e = true) tail ∧
    written tail =
      match maArray with
      | [] => ["[]" +:+ nl]
      | _ => match json_Marshal maArray with
             | Ok jsonText => [jsonText +:+ nl]
             | Err _ => []
             end
      end.
Proof.
  intros Hread p addr m1. unfold Bootstrap.handleBootstrapStream. rewrite Hread.
  fold p.
  set (maArray := Bootstrap.collect_others p (map_range m1) []).
  assert (Hperm : maArray ≡ₚ others p m1).
  { unfold maArray. rewrite collect_others_v1. cbn [app]. apply range_others. }
  exists maArray.
  assert (Hset : ∀ n0 : node,
    (if decide (text ≠ "") then peerMap_set p text
     else peerMap_set p (strings_Join [RemoteMultiaddr s; "/ipfs/"; p] "")) n0 =
    (tt, mkNode (<[p := addr]> (peerMap n0)) (world n0), [EMapSet p addr])).
  { intros n0. unfold addr. by destruct (decide (text ≠ "")). }
  run. rewrite Hset. run. fold m1. fold maArray.
  destruct maArray as [|a l] eqn:Hma.
  - destruct (decide (0 < length (@nil string))%nat) as [Hlt|_]; [cbn in Hlt; lia|]. run. destruct (write_err s) as [e|]; run.
    + eexists. split; [reflexivity|]. split; [done|]. split; [by repeat constructor|done].
    + eexists. split; [reflexivity|]. split; [done|]. split; [by repeat constructor|done].
  - destruct (decide (0 < length (a :: l))%nat) as [_|Hlt]; [|cbn in Hlt; lia].
    destruct (json_Marshal (a :: l)) as [j|e]; run.
    + destruct (write_err s) as [e|]; run.
      * eexists. split; [reflexivity|]. split; [done|]. split; [by repeat constructor|done].
      * eexists. split; [reflexivity|]. split; [done|]. split; [by repeat constructor|done].
    + eexists. split; [reflexivity|]. split; [done|]. split; [by repeat constructor|done].
Qed.

Lemma handleStream_discovery_run stream n line :
  ReadString LF (incoming stream) = Ok line →
  strings_Replace_nl line = "引导" →
  let p := RemotePeer stream in
  let addr := strings_Join [RemoteMultiaddr stream; "/ipfs/"; p] "" in
  let m1 := <[p := addr]> (peerMap n) in
  ∃ idArray tail,
    Dht.handleStream stream n =
      (tt, mkNode m1 (world n),
       [ELog [S_ "流处:"; S_ p; S_ (RemoteMultiaddr stream)]; ELog [S_ "引导"];
        ELock; EMapSet p addr; EUnlock; ERLock; EMapRead; ERUnlock] ++ tail) ∧
    idArray ≡ₚ others p m1 ∧
    Forall (λ e, is_io e = true) tail ∧
    written tail =
      match idArray with
      | [] => ["[]" +:+ nl]
      | _ => match json_Marshal idArray with
             | Ok jsonText => [jsonText +:+ nl]
             | Err _ => []
             end
      end.
Proof.
  intros Hread Htxt p addr m1. unfold Dht.handleStream. rewrite Hread. cbv zeta.
  rewrite Htxt. fold p. fold addr. clearbody addr.
  set (idArray := Dht.collect_others p (map_range m1) []).
  assert (Hperm : idArray ≡ₚ others p m1).
  { unfold idArray. rewrite collect_others_v2. cbn [app]. apply range_others. }
  exists idArray.
  rewrite decide_True by done.
  run. fold m1. fold idArray.
  destruct idArray as [|a l] eqn:Hma.
  - destruct (decide (0 < length (@nil string))%nat) as [Hlt|_]; [cbn in Hlt; lia|]. run. destruct (write_err stream) as [e|]; run.
    + eexists. split; [reflexivity|]. split; [done|]. split; [by repeat constructor|done].
    + eexists. split; [reflexivity|]. split; [done|]. split; [by repeat constructor|done].
  - destruct (decide (0 < length (a :: l))%nat) as [_|Hlt]; [|cbn in Hlt; lia].
    destruct (json_Marshal (a :: l)) as [j|e]; run.
    + destruct (write_err stream) as [e|]; run.
      * eexists. split; [reflexivity|]. split; [done|]. split; [by repeat constructor|done].
      * eexists. split; [reflexivity|]. split; [done|]. split; [by repeat constructor|done].
    + eexists. split; [reflexivity|]. split; [done|]. split; [by repeat constructor|done].
Qed.

End handlers.

(** * The outbound bootstrap *)

Section batches.
Context `{Externals}.

Lemma bind_assoc {A B C} (c : M A) (k : A → M B) (k' : B → M C) (n : node) :
  ((c ≫= k) ≫= k') n = (c ≫= λ a, k a ≫= k') n.
Proof.
  rewrite !run_bind. destruct (c n) as [[a n1] t1]. rewrite run_bind.
  destruct (k a n1) as [[b n2] t2]. destruct (k' b n2) as [[c' n3] t3].
  by rewrite app_assoc.
Qed.

Lemma bind_ext {A B} (c : M A) (k k' : A → M B) (n : node) :
  (∀ a n', k a n' = k' a n') → (c ≫= k) n = (c ≫= k') n.
Proof. intros Hk. rewrite !run_bind. destruct (c n) as [[a n1] t1]. by rewrite Hk. Qed.

Lemma ret_bind {B} (k : unit → M B) (n : node) :
  ((mret tt : M unit) ≫= k) n = k tt n.
Proof. rewrite run_bind, run_ret. by destruct (k tt n) as [[b n2] t2]. Qed.

Lemma connect_each_app l1 l2 : ∀ n,
  Bootstrap.connect_each (l1 ++ l2) n =
  (Bootstrap.connect_each l1 ≫= λ _, Bootstrap.connect_each l2) n.
Proof.
  induction l1 as [|v rest IH]; intros n.
  - cbn [app Bootstrap.connect_each]. by rewrite ret_bind.
  - cbn [app Bootstrap.connect_each]. rewrite bind_assoc.
    apply bind_ext. intros _ n'. apply IH.
Qed.

Lemma update_each_app l1 l2 : ∀ n,
  Dht.update_each (l1 ++ l2) n =
  (Dht.update_each l1 ≫= λ _, Dht.update_each l2) n.
Proof.
  induction l1 as [|v rest IH]; intros n.
  - cbn [app Dht.update_each]. by rewrite ret_bind.
  - cbn [app Dht.update_each]. rewrite bind_assoc.
    apply bind_ext. intros _ n'. apply IH.
Qed.

(** One entry of the batch that parses, by the outcome of its dial. *)
Lemma connect_each_dial_failed v ai rest n e w2 :
  textToAddrInfo v = Ok ai →
  host_Connect ai (world n) = (Some e, w2) →
  Bootstrap.connect_each (v :: rest) n =
    let '(r, n', t) := Bootstrap.connect_each rest (mkNode (peerMap n) w2) in
    (r, n', EConnect (ID ai) :: ELog [S_ e] :: t).
Proof.
  intros Hv Hc. cbn [Bootstrap.connect_each]. rewrite Hv. run.
  unfold node_Connect. rewrite Hc. run.
  by destruct (Bootstrap.connect_each rest _) as [[r n'] t].
Qed.

Lemma connect_each_dial_ok v ai rest n w2 :
  textToAddrInfo v = Ok ai →
  host_Connect ai (world n) = (None, w2) →
  Bootstrap.connect_each (v :: rest) n =
    let '(r, n', t) := Bootstrap.connect_each rest (mkNode (<[ID ai := v]> (peerMap n)) w2) in
    (r, n', EConnect (ID ai) :: ELog [S_ "已连节点:"; S_ v] :: EMapSet (ID ai) v :: t).
Proof.
  intros Hv Hc. cbn [Bootstrap.connect_each]. rewrite Hv. run.
  unfold node_Connect. rewrite Hc. run.
  by destruct (Bootstrap.connect_each rest _) as [[r n'] t].
Qed.

Lemma connect_each_malformed v e rest n :
  textToAddrInfo v = Err e →
  Bootstrap.connect_each (v :: rest) n =
    let '(r, n', t) := Bootstrap.connect_each rest n in (r, n', ELog [S_ e] :: t).
Proof.
  intros Hv. cbn [Bootstrap.connect_each]. rewrite Hv. run.
  by destruct (Bootstrap.connect_each rest _) as [[r n'] t].
Qed.

Lemma update_each_parsed v ai rest n :
  textToAddrInfo v = Ok ai →
  Dht.update_each (v :: rest) n =
    let '(r, n', t) := Dht.update_each rest (mkNode (<[ID ai := v]> (peerMap n)) (world n)) in
    (r, n', EMapSet (ID ai) v :: t).
Proof.
  intros Hv. cbn [Dht.update_each]. rewrite Hv. run.
  by destruct (Dht.update_each rest _) as [[r n'] t].
Qed.

Lemma update_each_malformed v e rest n :
  textToAddrInfo v = Err e →
  Dht.update_each (v :: rest) n =
    let '(r, n', t) := Dht.update_each rest n in (r, n', ELog [S_ e] :: t).
Proof.
  intros Hv. cbn [Dht.update_each]. rewrite Hv. run.
  by destruct (Dht.update_each rest _) as [[r n'] t].
Qed.

Lemma connect_each_grows l n :
  dom (peerMap n) ⊆ dom (map_after (Bootstrap.connect_each l) n).
Proof.
  by destruct (connect_each_keeps (λ _, True) grows
    (λ _, I) (λ _, I) (λ _ _, I) grows_insert l n) as [_ Hg].
Qed.

Lemma update_each_grows l n :
  dom (peerMap n) ⊆ dom (map_after (Dht.update_each l) n).
Proof.
  by destruct (update_each_keeps (λ _, True) grows
    (λ _, I) (λ _ _, I) grows_insert l n) as [_ Hg].
Qed.

Lemma node_eta (n : node) : mkNode (peerMap n) (world n) = n.
Proof. by destruct n. Qed.

(** C2, as the code has it: in the batch loop of [bootstrap], an entry
    that parses is upserted exactly when its dial succeeds.  When the dial
    fails the error is logged, the map is left as it was and the entries
    after it are processed from there; when it succeeds the entry is
    upserted, the entries after it are processed from there, and the peer
    is in the map at the end. *)
Theorem dial_gates_upsert (before after : list string) (v : string)
    (ai : AddrInfo Multiaddr) (n : node) :
  textToAddrInfo v = Ok ai →
  let n1 := (Bootstrap.connect_each before n).1.2 in
  let run := Bootstrap.connect_each (before ++ v :: after) in
  (∀ e w2, host_Connect ai (world n1) = (Some e, w2) →
     (run n).1.2 = (Bootstrap.connect_each after (mkNode (peerMap n1) w2)).1.2 ∧
     trace run n = trace (Bootstrap.connect_each before) n ++
                   [EConnect (ID ai); ELog [S_ e]] ++
                   trace (Bootstrap.connect_each after) (mkNode (peerMap n1) w2)) ∧
  (∀ w2, host_Connect ai (world n1) = (None, w2) →
     (run n).1.2 =
       (Bootstrap.connect_each after (mkNode (<[ID ai := v]> (peerMap n1)) w2)).1.2 ∧
     trace run n = trace (Bootstrap.connect_each before) n ++
                   [EConnect (ID ai); ELog [S_ "已连节点:"; S_ v]; EMapSet (ID ai) v] ++
                   trace (Bootstrap.connect_each after)
                     (mkNode (<[ID ai := v]> (peerMap n1)) w2) ∧
     is_Some (map_after run n !! ID ai)).
Proof.
  intros Hv n1 run. unfold run, trace, map_after, n1.
  split.
  - intros e w2 Hc. rewrite connect_each_app, run_bind.
    destruct (Bootstrap.connect_each before n) as [[[] n1'] t1]. cbn [fst snd] in *.
    rewrite (connect_each_dial_failed _ _ _ _ _ _ Hv Hc).
    by destruct (Bootstrap.connect_each after _) as [[r n'] t].
  - intros w2 Hc. rewrite connect_each_app, run_bind.
    destruct (Bootstrap.connect_each before n) as [[[] n1'] t1]. cbn [fst snd] in *.
    rewrite (connect_each_dial_ok _ _ _ _ _ Hv Hc).
    pose proof (connect_each_grows after (mkNode (<[ID ai := v]> (peerMap n1')) w2)) as Hg.
    unfold map_after in Hg.
    destruct (Bootstrap.connect_each after _) as [[r n'] t]. cbn [fst snd] in *.
    split; [done|]. split; [done|].
    apply elem_of_dom, Hg. cbn. rewrite dom_insert_L. set_solver.
Qed.

Lemma connect_each_installs before after v ai n w2 :
  textToAddrInfo v = Ok ai →
  host_Connect ai (world (Bootstrap.connect_each before n).1.2) = (None, w2) →
  (Bootstrap.connect_each (before ++ v :: after) n).1.2 =
    (Bootstrap.connect_each after
       (mkNode (<[ID ai := v]> (peerMap (Bootstrap.connect_each before n).1.2)) w2)).1.2 ∧
  is_Some (map_after (Bootstrap.connect_each (before ++ v :: after)) n !! ID ai).
Proof.
  intros Hv Hc. unfold map_after. rewrite connect_each_app, run_bind.
  destruct (Bootstrap.connect_each before n) as [[[] n1] t1]. cbn [fst snd] in *.
  rewrite (connect_each_dial_ok _ _ _ _ _ Hv Hc).
  pose proof (connect_each_grows after (mkNode (<[ID ai := v]> (peerMap n1)) w2)) as Hg.
  unfold map_after in Hg.
  destruct (Bootstrap.connect_each after _) as [[r n'] t]. cbn [fst snd] in *.
  split; [done|]. apply elem_of_dom, Hg. cbn. rewrite dom_insert_L. set_solver.
Qed.

(** Where a value of the map comes from after a batch. *)
Lemma connect_each_provenance l : ∀ n k x,
  map_after (Bootstrap.connect_each l) n !! k = Some x →
  peerMap n !! k = Some x ∨
  (x ∈ l ∧ ∃ ai, textToAddrInfo x = Ok ai ∧ ID ai = k).
Proof.
  unfold map_after. induction l as [|v rest IH]; intros n k x; [by left|].
  destruct (textToAddrInfo v) as [ai|e] eqn:Hv.
  - destruct (host_Connect ai (world n)) as [[e|] w2] eqn:Hc.
    + rewrite (connect_each_dial_failed _ _ _ _ _ _ Hv Hc).
      specialize (IH (mkNode (peerMap n) w2) k x).
      destruct (Bootstrap.connect_each rest _) as [[r n'] t]. cbn [fst snd] in *.
      intros Hx. destruct (IH Hx) as [?|[? ?]]; [by left|right]. split; [set_solver|done].
    + rewrite (connect_each_dial_ok _ _ _ _ _ Hv Hc).
      specialize (IH (mkNode (<[ID ai := v]> (peerMap n)) w2) k x).
      destruct (Bootstrap.connect_each rest _) as [[r n'] t]. cbn [fst snd] in *.
      intros Hx. destruct (IH Hx) as [Hin|[? ?]]; [|right; split; [set_solver|done]].
      cbn in Hin. destruct (decide (ID ai = k)) as [<-|Hne].
      * rewrite lookup_insert_eq in Hin. simplify_eq. right. split; [set_solver|eauto].
      * rewrite lookup_insert_ne in Hin by done. by left.
  - rewrite (connect_each_malformed _ _ _ _ Hv).
    specialize (IH n k x).
    destruct (Bootstrap.connect_each rest _) as [[r n'] t]. cbn [fst snd] in *.
    intros Hx. destruct (IH Hx) as [?|[? ?]]; [by left|right]. split; [set_solver|done].
Qed.

Lemma update_each_lookup l : ∀ n k,
  (map_after (Dht.update_each l) n !! k = peerMap n !! k ∧
   ∀ v ai, v ∈ l → textToAddrInfo v = Ok ai → ID ai ≠ k) ∨
  (∃ v ai, v ∈ l ∧ textToAddrInfo v = Ok ai ∧ ID ai = k ∧
           map_after (Dht.update_each l) n !! k = Some v).
Proof.
  unfold map_after. induction l as [|v0 rest IH]; intros n k.
  - left. split; [done|]. intros v ai Hin. by apply elem_of_nil in Hin.
  - destruct (textToAddrInfo v0) as [ai0|e] eqn:Hv.
    + rewrite (update_each_parsed _ _ _ _ Hv).
      specialize (IH (mkNode (<[ID ai0 := v0]> (peerMap n)) (world n)) k).
      destruct (Dht.update_each rest _) as [[r n'] t]. cbn [fst snd] in *.
      destruct IH as [[Heq Hnone]|(v & ai & Hin & Hp & Hid & Hl)].
      * cbn in Heq. destruct (decide (ID ai0 = k)) as [<-|Hne].
        -- right. exists v0, ai0. rewrite Heq, lookup_insert_eq. set_solver.
        -- left. rewrite Heq, lookup_insert_ne by done. split; [done|].
           intros v ai [->|Hin]%elem_of_cons Hp; [congruence|eauto].
      * right. exists v, ai. set_solver.
    + rewrite (update_each_malformed _ _ _ _ Hv).
      specialize (IH n k).
      destruct (Dht.update_each rest _) as [[r n'] t]. cbn [fst snd] in *.
      destruct IH as [[Heq Hnone]|(v & ai & Hin & Hp & Hid & Hl)].
      * left. split; [done|].
        intros v ai [->|Hin]%elem_of_cons Hp; [congruence|eauto].
      * right. exists v, ai. set_solver.
Qed.

(** C7, as the code has it: a malformed entry is skipped on its own, the
    batch ends in the state it would end in without that entry (both
    loops); [updatePeer] installs every well-formed entry, and [bootstrap]
    installs every well-formed entry whose dial succeeds.  The value found
    under the peer's ID at the end is a connect string of the batch that
    parses to that ID (the last one installed). *)
Theorem malformed_entries_skipped_individually :
  (∀ before after v e n, textToAddrInfo v = Err e →
     (Bootstrap.connect_each (before ++ v :: after) n).1.2 =
     (Bootstrap.connect_each (before ++ after) n).1.2 ∧
     (Dht.update_each (before ++ v :: after) n).1.2 =
     (Dht.update_each (before ++ after) n).1.2) ∧
  (∀ l v ai n, v ∈ l → textToAddrInfo v = Ok ai →
     ∃ v' ai', v' ∈ l ∧ textToAddrInfo v' = Ok ai' ∧ ID ai' = ID ai ∧
               map_after (Dht.update_each l) n !! ID ai = Some v') ∧
  (∀ before after v ai n w2, textToAddrInfo v = Ok ai →
     host_Connect ai (world (Bootstrap.connect_each before n).1.2) = (None, w2) →
     ∃ v' ai', v' ∈ v :: after ∧ textToAddrInfo v' = Ok ai' ∧ ID ai' = ID ai ∧
       map_after (Bootstrap.connect_each (before ++ v :: after)) n !! ID ai = Some v').
Proof.
  split; [|split].
  - intros before after v e n Hv. split.
    + rewrite !connect_each_app, !run_bind.
      destruct (Bootstrap.connect_each before n) as [[[] n1] t1].
      rewrite (connect_each_malformed _ _ _ _ Hv).
      by destruct (Bootstrap.connect_each after n1) as [[r n'] t].
    + rewrite !update_each_app, !run_bind.
      destruct (Dht.update_each before n) as [[[] n1] t1].
      rewrite (update_each_malformed _ _ _ _ Hv).
      by destruct (Dht.update_each after n1) as [[r n'] t].
  - intros l v ai n Hin Hv.
    destruct (update_each_lookup l n (ID ai)) as [[_ Hnone]|(v' & ai' & ? & ? & ? & ?)].
    + by destruct (Hnone v ai Hin Hv).
    + by exists v', ai'.
  - intros before after v ai n w2 Hv Hc.
    destruct (connect_each_installs before after v ai n w2 Hv Hc) as (Hnode & [x Hx]).
    exists x. rewrite Hx.
    assert (Hx' : map_after (Bootstrap.connect_each after)
                    (mkNode (<[ID ai := v]> (peerMap (Bootstrap.connect_each before n).1.2)) w2)
                  !! ID ai = Some x).
    { unfold map_after in *. by rewrite <-Hnode. }
    apply connect_each_provenance in Hx' as [Hx'|[Hin (ai' & Hp & Hid)]].
    + cbn in Hx'. rewrite lookup_insert_eq in Hx'. simplify_eq.
      exists ai. split; [set_solver|done].
    + exists ai'. split; [set_solver|done].
Qed.

End batches.

(** * Locks and wire format *)

Section discipline.
Context `{Externals}.

Lemma lock_run_app st t1 t2 :
  lock_run st (t1 ++ t2) =
  match lock_run st t1 with Some st' => lock_run st' t2 | None => None end.
Proof.
  revert st. induction t1 as [|e t1 IH]; intros st; cbn; [done|].
  destruct (lock_step st e); [apply IH|done].
Qed.

Lemma lock_run_stable st t :
  Forall (λ e, lock_step st e = Some st) t → lock_run st t = Some st.
Proof. induction 1 as [|e t He _ IH]; cbn; [done|]. by rewrite He. Qed.


Lemma unlocked_write_undisciplined t k v :
  Forall (λ e, is_lock_op e = false) t → EMapSet k v ∈ t →
  lock_run Unlocked t = None.
Proof.
  induction 1 as [|e t He _ IH]; intros Hin; [by apply elem_of_nil in Hin|].
  apply elem_of_cons in Hin as [<-|Hin]; [done|].
  cbn [lock_run]. destruct e; try done; cbn; auto.
Qed.

Lemma written_elem_of bytes t : bytes ∈ written t ↔ EWrite bytes ∈ t.
Proof.
  unfold written. rewrite list_elem_of_omap. split.
  - intros (e & Hin & He). destruct e; by simplify_eq.
  - intros Hin. by exists (EWrite bytes).
Qed.

Lemma last_byte_cons c s :
  last_byte (String c s) = match s with "" => Some c | _ => last_byte s end.
Proof. by destruct s. Qed.

Lemma last_byte_slash_n natAddr : last_byte (natAddr +:+ "/n") = Some "n"%char.
Proof.
  induction natAddr as [|c s IH]; [done|].
  change (String c s +:+ "/n") with (String c (s +:+ "/n")).
  rewrite last_byte_cons, IH. by destruct s.
Qed.

Lemma bootstrap_v1_takes_no_lock natAddr addrText :
  keeps (λ e, is_lock_op e = false) any_map (Bootstrap.bootstrap natAddr addrText).
Proof.
  unfold Bootstrap.bootstrap.
  repeat first [keeps_step | apply connect_each_keeps; try apply _]; done.
Qed.

Lemma updatePeer_takes_no_lock jsonText :
  keeps (λ e, is_lock_op e = false) any_map (Dht.updatePeer jsonText).
Proof. apply updatePeer_keeps; try apply _; done. Qed.

Lemma bootstrap_v1_writes natAddr addrText :
  keeps (λ e, ∀ bytes, e = EWrite bytes → bytes = natAddr +:+ "/n") any_map
    (Bootstrap.bootstrap natAddr addrText).
Proof.
  unfold Bootstrap.bootstrap.
  repeat first [keeps_step | apply connect_each_keeps; try apply _];
    try done; intros; by simplify_eq.
Qed.

(** C3, on [bootstrap] of the [/mp2p/bootstrap] variant: whatever it
    writes to the stream is [natAddr] followed by the two bytes slash and
    [n]; its last byte is the letter [n], not a newline. *)
Theorem bootstrap_request_ends_in_slash_n (natAddr addrText : string) (n : node)
    (bytes : string) :
  bytes ∈ written (trace (Bootstrap.bootstrap natAddr addrText) n) →
  bytes = natAddr +:+ "/n" ∧ last_byte bytes = Some "n"%char ∧ last_byte bytes ≠ Some LF.
Proof.
  intros Hin. apply written_elem_of in Hin.
  destruct (bootstrap_v1_writes natAddr addrText n) as [Hall _].
  rewrite Forall_forall in Hall. specialize (Hall _ Hin bytes eq_refl). subst bytes.
  rewrite last_byte_slash_n. done.
Qed.

(** C4, on [bootstrap] of the [/mp2p/bootstrap] variant: it never takes
    [sm], so a run of it that upserts an entry writes the map outside the
    exclusive lock. *)
Theorem bootstrap_upserts_without_lock (natAddr addrText : string) (n : node)
    (k v : string) :
  EMapSet k v ∈ trace (Bootstrap.bootstrap natAddr addrText) n →
  lock_disciplined (trace (Bootstrap.bootstrap natAddr addrText) n) = false.
Proof.
  intros Hin. unfold lock_disciplined.
  destruct (bootstrap_v1_takes_no_lock natAddr addrText n) as [Hall _].
  by rewrite (unlocked_write_undisciplined _ k v Hall Hin).
Qed.

Lemma updatePeer_upserts_without_lock jsonText n k v :
  EMapSet k v ∈ trace (Dht.updatePeer jsonText) n →
  lock_disciplined (trace (Dht.updatePeer jsonText) n) = false.
Proof.
  intros Hin. unfold lock_disciplined.
  destruct (updatePeer_takes_no_lock jsonText n) as [Hall _].
  by rewrite (unlocked_write_undisciplined _ k v Hall Hin).
Qed.


Lemma reconcile_lock_disciplined m w :
  lock_disciplined (trace Bootstrap.reconcile (mkNode m w)) = true.
Proof.
  destruct (reconcile_run m w) as (m2 & t1 & t2 & Hrun & _ & _ & _ & He1 & _ & _ & He2).
  unfold trace. rewrite Hrun. unfold lock_disciplined. cbn.
  rewrite lock_run_app, (lock_run_stable WriteLocked t1).
  - cbn. rewrite lock_run_app, (lock_run_stable WriteLocked t2); [done|].
    apply Forall_forall. intros e [k [->| ->]]%He2; done.
  - apply Forall_forall. intros e [->|[k [->| ->]]]%He1; done.
Qed.

End discipline.

(** * Discovery replies *)

Section replies.
Context `{Externals}.

Lemma others_insert p addr (m : gmap string string) :
  others p (<[p := addr]> m) = others p m.
Proof. unfold others. by rewrite delete_insert_eq. Qed.

Lemma others_elem_of p (m : gmap string string) v :
  v ∈ others p m ↔ ∃ k, k ≠ p ∧ m !! k = Some v.
Proof.
  unfold others. rewrite list_elem_of_fmap. split.
  - intros ([k v'] & -> & Hin). apply elem_of_map_to_list in Hin. cbn.
    destruct (decide (p = k)) as [->|Hk].
    + by rewrite lookup_delete_eq in Hin.
    + rewrite lookup_delete_ne in Hin by done. exists k. split; [congruence|done].
  - intros (k & Hk & Hv). exists (k, v). split; [done|].
    apply elem_of_map_to_list. rewrite lookup_delete_ne by congruence. done.
Qed.

(** C5: the reply the inbound handler builds for the peer [p], from the
    map [peerMap n] it is given, lists, in some order, the connect string of
    every entry of that map whose key is not [p], each once, and nothing
    else: a string is listed exactly when it is the value of a key other
    than [p], and the entry of [p] itself, the one the handler has just
    stored included, contributes nothing.  What goes on the wire is the
    JSON encoding of that list followed by a newline (the literal [[]] when
    the list is empty, and nothing when the encoder fails).  Both
    handlers. *)
Theorem discovery_response_excludes_requester :
  (∀ s n text,
     Bootstrap.readTextFormStream s = Ok text →
     ∃ maArray,
       maArray ≡ₚ others (RemotePeer s) (peerMap n) ∧
       (∀ v, v ∈ maArray ↔ ∃ k, k ≠ RemotePeer s ∧ peerMap n !! k = Some v) ∧
       maArray ≡ₚ others (RemotePeer s) (map_after (Bootstrap.handleBootstrapStream s) n) ∧
       written (trace (Bootstrap.handleBootstrapStream s) n) =
         match maArray with
         | [] => ["[]" +:+ nl]
         | _ => match json_Marshal maArray with
                | Ok jsonText => [jsonText +:+ nl]
                | Err _ => []
                end
         end) ∧
  (∀ stream n line,
     ReadString LF (incoming stream) = Ok line →
     strings_Replace_nl line = "引导" →
     ∃ idArray,
       idArray ≡ₚ others (RemotePeer stream) (peerMap n) ∧
       (∀ v, v ∈ idArray ↔ ∃ k, k ≠ RemotePeer stream ∧ peerMap n !! k = Some v) ∧
       idArray ≡ₚ others (RemotePeer stream) (map_after (Dht.handleStream stream) n) ∧
       written (trace (Dht.handleStream stream) n) =
         match idArray with
         | [] => ["[]" +:+ nl]
         | _ => match json_Marshal idArray with
                | Ok jsonText => [jsonText +:+ nl]
                | Err _ => []
                end
         end).
Proof.
  split.
  - intros s n text Hread.
    destruct (handleBootstrapStream_run s n text Hread) as (ma & tail & Hrun & Hp & _ & Hw).
    exists ma. unfold map_after, trace. rewrite Hrun. cbn [fst snd peerMap].
    pose proof Hp as Hpre. rewrite others_insert in Hpre.
    split; [exact Hpre|]. split; [|split; [exact Hp|exact Hw]].
    intros v. rewrite Hpre. apply others_elem_of.
  - intros stream n line Hread Htxt.
    destruct (handleStream_discovery_run stream n line Hread Htxt)
      as (ma & tail & Hrun & Hp & _ & Hw).
    exists ma. unfold map_after, trace. rewrite Hrun. cbn [fst snd peerMap].
    pose proof Hp as Hpre. rewrite others_insert in Hpre.
    split; [exact Hpre|]. split; [|split; [exact Hp|exact Hw]].
    intros v. rewrite Hpre. apply others_elem_of.
Qed.

Lemma others_insert_nil p addr (m : gmap string string) :
  dom m ⊆ {[p]} → others p (<[p := addr]> m) = [].
Proof. intros Hd. apply others_nil. rewrite dom_insert_L. set_solver. Qed.

(** C8: when the map holds no entry other than the requester's, the
    handler writes exactly the two bytes [[]] followed by a newline, and the
    client side, reading that line and decoding it, gets the empty list
    (given that [json.Unmarshal] decodes [[]] to the empty list). *)
Theorem empty_discovery_response :
  json_Unmarshal "[]" = Ok [] →
  (∀ s n text,
     Bootstrap.readTextFormStream s = Ok text →
     dom (peerMap n) ⊆ {[RemotePeer s]} →
     written (trace (Bootstrap.handleBootstrapStream s) n) = ["[]" +:+ nl]) ∧
  (∀ stream n line,
     ReadString LF (incoming stream) = Ok line →
     strings_Replace_nl line = "引导" →
     dom (peerMap n) ⊆ {[RemotePeer stream]} →
     written (trace (Dht.handleStream stream) n) = ["[]" +:+ nl]) ∧
  String.length "[]" = 2%nat ∧
  read_reply ("[]" +:+ nl) = Ok [].
Proof.
  intros Hjson. split; [|split; [|split; [done|]]].
  - intros s n text Hread Hdom.
    destruct (handleBootstrapStream_run s n text Hread) as (ma & tail & Hrun & Hp & _ & Hw).
    rewrite others_insert_nil in Hp by done. apply Permutation_nil_r in Hp. subst ma.
    unfold trace. by rewrite Hrun.
  - intros stream n line Hread Htxt Hdom.
    destruct (handleStream_discovery_run stream n line Hread Htxt)
      as (ma & tail & Hrun & Hp & _ & Hw).
    rewrite others_insert_nil in Hp by done. apply Permutation_nil_r in Hp. subst ma.
    unfold trace. by rewrite Hrun.
  - unfold read_reply. cbn. exact Hjson.
Qed.

(** [handleStream] on a message that is neither marker. *)
Lemma unrecognized_message_ignored (stream : Stream) (n : node) (line : string) :
  ReadString LF (incoming stream) = Ok line →
  strings_Replace_nl line ≠ "引导" →
  strings_Replace_nl line ≠ "你好" →
  Dht.handleStream stream n =
    (tt, n, [ELog [S_ "流处:"; S_ (RemotePeer stream); S_ (RemoteMultiaddr stream)];
             ELog [S_ (strings_Replace_nl line)]]) ∧
  written (trace (Dht.handleStream stream) n) = [] ∧
  map_after (Dht.handleStream stream) n = peerMap n.
Proof.
  intros Hread H1 H2.
  assert (Hrun : Dht.handleStream stream n =
    (tt, n, [ELog [S_ "流处:"; S_ (RemotePeer stream); S_ (RemoteMultiaddr stream)];
             ELog [S_ (strings_Replace_nl line)]])).
  { unfold Dht.handleStream. rewrite Hread. cbv zeta.
    rewrite !decide_False by done. run. done. }
  unfold trace, map_after. by rewrite Hrun.
Qed.

(** C10, as the code has it.  [handleStream], which dispatches on the two
    markers, gives a message that is neither of them no reply, logs no
    error for it (the only lines are the two it prints for every message)
    and leaves the map and the world as they were.  [handleBootstrapStream]
    has no dispatch: every line it reads, a line that is neither marker
    included, is handled as a discovery request: it is stored as the
    sender's connect string (the synthesized address when the line is
    empty) and answered with the list of the other entries. *)
Theorem unrecognized_message_by_handler :
  (∀ stream n line,
     ReadString LF (incoming stream) = Ok line →
     strings_Replace_nl line ≠ "引导" →
     strings_Replace_nl line ≠ "你好" →
     Dht.handleStream stream n =
       (tt, n, [ELog [S_ "流处:"; S_ (RemotePeer stream); S_ (RemoteMultiaddr stream)];
                ELog [S_ (strings_Replace_nl line)]]) ∧
     written (trace (Dht.handleStream stream) n) = [] ∧
     map_after (Dht.handleStream stream) n = peerMap n) ∧
  (∀ s n text,
     Bootstrap.readTextFormStream s = Ok text →
     let addr := if decide (text = "") then RemoteMultiaddr s +:+ "/ipfs/" +:+ RemotePeer s
                 else text in
     (Bootstrap.handleBootstrapStream s n).1.2 =
       mkNode (<[RemotePeer s := addr]> (peerMap n)) (world n) ∧
     EMapSet (RemotePeer s) addr ∈ trace (Bootstrap.handleBootstrapStream s) n ∧
     ∃ maArray,
       maArray ≡ₚ others (RemotePeer s) (peerMap n) ∧
       written (trace (Bootstrap.handleBootstrapStream s) n) =
         match maArray with
         | [] => ["[]" +:+ nl]
         | _ => match json_Marshal maArray with
                | Ok jsonText => [jsonText +:+ nl]
                | Err _ => []
                end
         end).
Proof.
  split; [exact unrecognized_message_ignored|].
  intros s n text Hread addr.
  destruct (handleBootstrapStream_run s n text Hread) as (ma & tail & Hrun & Hp & _ & Hw).
  assert (Haddr : (if decide (text ≠ "") then text
                   else strings_Join [RemoteMultiaddr s; "/ipfs/"; RemotePeer s] "") = addr).
  { unfold addr. destruct (decide (text = "")); [by rewrite decide_False by auto|].
    by rewrite decide_True. }
  rewrite Haddr in Hrun, Hp. rewrite others_insert in Hp.
  unfold trace. rewrite Hrun. cbn [fst snd].
  split; [done|]. split; [|by exists ma].
  rewrite elem_of_app. left. do 3 apply list_elem_of_further. apply list_elem_of_here.
Qed.

End replies.

(** * Identity *)

Section keys.
Context `{KeyStore}.

(** C6, as the code has it: [rsaKey] has no error result.  When the
    directory is missing and cannot be created it logs the error and
    returns two absent keys; when it can be created it returns the freshly
    generated pair, whatever the marshalling and the two file writes
    answer; when the directory exists it returns whatever unmarshalling the
    contents read from the two files yields, whatever the reads and the
    decoders report. *)
Theorem rsaKey_never_reports_failure (dir : string) (d : Disk) :
  (os_IsNotExist (os_Stat dir d) = true →
   ∀ e d', os_MkdirAll dir d = (Some e, d') →
     (rsaKey dir d).1.1 = mkKeys None None ∧
     ELog [S_ "创建密钥文件夹出错:"; S_ e] ∈ (rsaKey dir d).2) ∧
  (os_IsNotExist (os_Stat dir d) = true →
   ∀ d', os_MkdirAll dir d = (None, d') →
     (rsaKey dir d).1.1 =
       mkKeys (crypto_GenerateKeyPairWithReader d').1.1.1
              (crypto_GenerateKeyPairWithReader d').1.1.2) ∧
  (os_IsNotExist (os_Stat dir d) = false →
     (rsaKey dir d).1.1 =
       mkKeys (crypto_UnmarshalPrivateKey
                 (ioutil_ReadFile (strings_Join [dir; "private"] "/") d).1).1
              (crypto_UnmarshalPublicKey
                 (ioutil_ReadFile (strings_Join [dir; "public"] "/") d).1).1).
Proof.
  unfold rsaKey. cbv zeta. split; [|split].
  - intros Hne e d' Hmk. rewrite Hne, Hmk. cbn. split; [done|]. set_solver.
  - intros Hne d' Hmk. rewrite Hne, Hmk.
    destruct (crypto_GenerateKeyPairWithReader d') as [[[pr pu] e] d1].
    destruct (crypto_MarshalPrivateKey pr) as [b1 e1].
    destruct (ioutil_WriteFile _ b1 d1) as [e2 d2].
    destruct (crypto_MarshalPublicKey pu) as [b2 e3].
    destruct (ioutil_WriteFile _ b2 d2) as [e4 d3]. done.
  - intros Hne. rewrite Hne.
    destruct (ioutil_ReadFile (strings_Join [dir; "private"] "/") d) as [b1 e1].
    destruct (ioutil_ReadFile (strings_Join [dir; "public"] "/") d) as [b2 e2].
    cbn [fst snd].
    destruct (crypto_UnmarshalPrivateKey b1) as [pr e3].
    destruct (crypto_UnmarshalPublicKey b2) as [pu e4]. done.
Qed.

End keys.

(** * Runs in the small world *)

Section runs.
Import Demo.

(** The round of [drifting]: [/new] joins, [/old] leaves, [/kept] stays. *)
Example reconcile_drifting :
  trace Bootstrap.reconcile drifting =
    [ERefresh; ELock; EMapRead; EMapRead; Bootstrap.joined "/new"; EMapSet "/new" "";
     EMapRead; Bootstrap.departed "/old"; EMapDelete "/old"; EMapRead;
     ELog [S_ "DHT节点数量:"; I_ 2]; EUnlock; ESleep 6] ∧
  map_after Bootstrap.reconcile drifting = <["/kept" := "/kept"]> (<["/new" := ""]> ∅).
Proof. vm_compute. done. Qed.

(** C2 refuted as stated: a connect string that parses, whose dial fails,
    is not in the map after [bootstrap], which returns no error. *)
Lemma unreachable_peer_is_not_upserted :
  read_reply (seed_reply (world unlucky)) = Ok ["/b"] ∧
  textToAddrInfo "/b" = Ok (mkAddrInfo "/b" ["/b"]) ∧
  value (Bootstrap.bootstrap "" "/seed") unlucky = None ∧
  ELog [S_ "dial failed"] ∈ trace (Bootstrap.bootstrap "" "/seed") unlucky ∧
  map_after (Bootstrap.bootstrap "" "/seed") unlucky !! "/b" = None.
Proof. vm_compute. repeat split; try done. repeat constructor. Qed.

Lemma dial_gates_upsert_witness :
  (Bootstrap.connect_each ([] ++ ("/b" :: ["/a"])) unlucky).1.2 =
  (Bootstrap.connect_each ["/a"] (mkNode (peerMap unlucky) (world unlucky))).1.2.
Proof.
  exact (proj1 (proj1 (dial_gates_upsert [] ["/a"] "/b" (mkAddrInfo "/b" ["/b"])
                         unlucky eq_refl) "dial failed" (world unlucky) eq_refl)).
Defined.

Lemma bootstrap_request_witness :
  "/n" = "" +:+ "/n" ∧ last_byte "/n" = Some "n"%char ∧ last_byte "/n" ≠ Some LF.
Proof.
  apply (bootstrap_request_ends_in_slash_n "" "/seed" joining "/n").
  vm_compute. constructor.
Defined.

Lemma bootstrap_lock_witness :
  lock_disciplined (trace (Bootstrap.bootstrap "" "/seed") joining) = false.
Proof.
  apply (bootstrap_upserts_without_lock "" "/seed" joining "/a" "/a").
  vm_compute. repeat constructor.
Defined.

Lemma discovery_response_witness :
  ∃ maArray,
    maArray ≡ₚ others "QmP" (peerMap seed) ∧
    (∀ v, v ∈ maArray ↔ ∃ k, k ≠ "QmP" ∧ peerMap seed !! k = Some v) ∧
    maArray ≡ₚ others "QmP" (map_after (Bootstrap.handleBootstrapStream announcing) seed) ∧
    written (trace (Bootstrap.handleBootstrapStream announcing) seed) =
      match maArray with
      | [] => ["[]" +:+ nl]
      | _ => match json_Marshal maArray with
             | Ok jsonText => [jsonText +:+ nl]
             | Err _ => []
             end
      end.
Proof.
  exact (proj1 discovery_response_excludes_requester announcing seed
           "/ip4/1.2.3.4/udp/9/quic/ipfs/QmP" eq_refl).
Defined.

(** The reply [seed] sends to [QmP]: the entry of [QmA] alone. *)
Example discovery_response_seed :
  written (trace (Bootstrap.handleBootstrapStream announcing) seed) =
    [reply ["/ip4/10.0.0.1/udp/4001/quic/ipfs/QmA"]] ∧
  map_after (Bootstrap.handleBootstrapStream announcing) seed !! "QmP" =
    Some "/ip4/1.2.3.4/udp/9/quic/ipfs/QmP".
Proof. vm_compute. done. Qed.

Lemma empty_discovery_response_witness :
  written (trace (Bootstrap.handleBootstrapStream announcing) lonely) = ["[]" +:+ nl].
Proof.
  refine (proj1 (empty_discovery_response _) announcing lonely
            "/ip4/1.2.3.4/udp/9/quic/ipfs/QmP" _ _).
  - vm_compute. reflexivity.
  - vm_compute. reflexivity.
  - cbn. rewrite dom_empty_L. apply empty_subseteq.
Defined.

(** C10 refuted as stated: the line [ping] is neither marker, and
    [handleBootstrapStream] answers it and stores it as the connect string
    of the sender, replacing the one the map held. *)
Lemma bootstrap_handler_answers_any_line :
  Bootstrap.readTextFormStream chatting = Ok "ping" ∧
  "ping" ≠ "引导" ∧ "ping" ≠ "你好" ∧
  written (trace (Bootstrap.handleBootstrapStream chatting) seed) =
    [reply ["/ip4/10.0.0.1/udp/4001/quic/ipfs/QmA"]] ∧
  peerMap seed !! "QmP" = Some "/stale" ∧
  map_after (Bootstrap.handleBootstrapStream chatting) seed !! "QmP" = Some "ping".
Proof. vm_compute. repeat split; done. Qed.

Lemma unrecognized_message_by_handler_witness :
  Dht.handleStream chatting seed =
    (tt, seed, [ELog [S_ "流处:"; S_ "QmP"; S_ "/ip4/10.0.0.2/udp/4001/quic"];
                ELog [S_ "ping"]]) ∧
  written (trace (Dht.handleStream chatting) seed) = [] ∧
  map_after (Dht.handleStream chatting) seed = peerMap seed.
Proof.
  apply (proj1 unrecognized_message_by_handler chatting seed (line "ping")).
  - reflexivity.
  - vm_compute. discriminate.
  - vm_compute. discriminate.
Defined.

(** C7 refuted as stated: of the three entries the seed returns, [/b] is
    well formed and is not installed, because its dial fails; [/a] is
    installed and [bad] is skipped. *)
Lemma well_formed_entry_not_installed :
  read_reply (seed_reply (world joining)) = Ok ["/a"; "bad"; "/b"] ∧
  textToAddrInfo "/b" = Ok (mkAddrInfo "/b" ["/b"]) ∧
  textToAddrInfo "bad" = Err "failed to parse multiaddr" ∧
  map_after (Bootstrap.bootstrap "" "/seed") joining !! "/a" = Some "/a" ∧
  map_after (Bootstrap.bootstrap "" "/seed") joining !! "/b" = None.
Proof. vm_compute. done. Qed.

Lemma malformed_entries_witness :
  (Bootstrap.connect_each (["/a"] ++ ("bad" :: ["/b"])) joining).1.2 =
  (Bootstrap.connect_each (["/a"] ++ ["/b"]) joining).1.2 ∧
  (Dht.update_each (["/a"] ++ ("bad" :: ["/b"])) joining).1.2 =
  (Dht.update_each (["/a"] ++ ["/b"]) joining).1.2.
Proof.
  exact (proj1 malformed_entries_skipped_individually ["/a"] ["/b"] "bad"
           "failed to parse multiaddr" joining eq_refl).
Defined.

(** C6 refuted as stated: with the directory missing on a read-only file
    system, and with a damaged private key file, [rsaKey] returns to its
    caller with absent keys; its result has no error in it. *)
Lemma rsaKey_returns_absent_keys :
  os_MkdirAll "./config/rsa" read_only_disk = (Some "read-only file system", read_only_disk) ∧
  (rsaKey "./config/rsa" read_only_disk).1.1 = mkKeys None None ∧
  crypto_UnmarshalPrivateKey "garbage" = (None, Some "malformed key") ∧
  (rsaKey "./config/rsa" damaged_disk).1.1 = mkKeys None (Some "k-public").
Proof. vm_compute. done. Qed.

Lemma rsaKey_witness :
  (rsaKey "./config/rsa" read_only_disk).1.1 = mkKeys None None ∧
  ELog [S_ "创建密钥文件夹出错:"; S_ "read-only file system"] ∈
    (rsaKey "./config/rsa" read_only_disk).2.
Proof.
  exact (proj1 (rsaKey_never_reports_failure "./config/rsa" read_only_disk) eq_refl
           "read-only file system" read_only_disk eq_refl).
Defined.

End runs.

(** * Further properties of the handlers *)

Section handler_effects.
Context `{Externals}.

Lemma append_nil_l (s : string) : "" +:+ s = s.
Proof. reflexivity. Qed.

Lemma append_cons c (s s' : string) : String c s +:+ s' = String c (s +:+ s').
Proof. reflexivity. Qed.

Lemma ReadString_no_delim delim input :
  contains_byte delim input = false → ReadString delim input = Err "EOF".
Proof.
  induction input as [|c rest IH]; [done|]. cbn -[Ascii.eqb].
  destruct (Ascii.eqb c delim); [done|]. cbn -[Ascii.eqb]. intros Hrest. by rewrite IH.
Qed.

Lemma ReadString_line delim text rest :
  contains_byte delim text = false →
  ReadString delim (text +:+ String delim rest) = Ok (text +:+ String delim "").
Proof.
  induction text as [|c text IH]; rewrite ?append_nil_l, ?append_cons; cbn -[Ascii.eqb].
  - intros _. by rewrite Ascii.eqb_refl.
  - destruct (Ascii.eqb c delim); [done|]. cbn -[Ascii.eqb]. intros Htext. by rewrite IH.
Qed.

Lemma strings_Replace_nl_line text :
  contains_byte LF text = false → strings_Replace_nl (text +:+ nl) = text.
Proof.
  induction text as [|c text IH]; rewrite ?append_nil_l, ?append_cons; cbn -[Ascii.eqb];
    [done|].
  destruct (Ascii.eqb c LF); [done|]. cbn -[Ascii.eqb]. intros Htext. by rewrite IH.
Qed.

Lemma strings_Replace_nl_clean s : contains_byte LF (strings_Replace_nl s) = false.
Proof.
  induction s as [|c s IH]; cbn -[Ascii.eqb]; [done|].
  destruct (Ascii.eqb c LF) eqn:Hc; [done|]. cbn -[Ascii.eqb]. by rewrite Hc.
Qed.

Lemma readTextFormStream_first_line (s : Stream) (text rest : string) :
  contains_byte LF text = false →
  incoming s = text +:+ nl +:+ rest →
  Bootstrap.readTextFormStream s = Ok text.
Proof.
  intros Htext Hin. unfold Bootstrap.readTextFormStream. rewrite Hin.
  change (text +:+ nl +:+ rest) with (text +:+ String LF rest).
  rewrite ReadString_line by done. f_equal. by apply strings_Replace_nl_line.
Qed.

Lemma readTextFormStream_no_newline (s : Stream) (text : string) :
  Bootstrap.readTextFormStream s = Ok text → contains_byte LF text = false.
Proof.
  unfold Bootstrap.readTextFormStream.
  destruct (ReadString LF (incoming s)) as [l|e]; [|done].
  intros [= <-]. apply strings_Replace_nl_clean.
Qed.

(** The line framing of the wire format: of the bytes [text], a newline
    and anything after it, [readTextFormStream] returns [text], provided
    [text] holds no newline; what it returns never holds one; and it fails
    exactly when no newline arrives. *)
Theorem line_framing :
  (∀ s text rest,
     contains_byte LF text = false →
     incoming s = text +:+ nl +:+ rest →
     Bootstrap.readTextFormStream s = Ok text) ∧
  (∀ s text, Bootstrap.readTextFormStream s = Ok text → contains_byte LF text = false) ∧
  (∀ s, contains_byte LF (incoming s) = false ↔
        Bootstrap.readTextFormStream s = Err "EOF") ∧
  (∀ s, (∃ text, Bootstrap.readTextFormStream s = Ok text) ∨
        Bootstrap.readTextFormStream s = Err "EOF").
Proof.
  split; [exact readTextFormStream_first_line|].
  split; [exact readTextFormStream_no_newline|].
  assert (Hcases : ∀ input,
    (contains_byte LF input = true ∧ ∃ l, ReadString LF input = Ok l) ∨
    (contains_byte LF input = false ∧ ReadString LF input = Err "EOF")).
  { induction input as [|c rest IH]; [by right|]. cbn -[Ascii.eqb].
    destruct (Ascii.eqb c LF); [left; eauto|]. cbn -[Ascii.eqb].
    destruct IH as [[-> [l ->]]|[-> ->]]; [left; eauto|by right]. }
  split.
  - intros s. unfold Bootstrap.readTextFormStream.
    destruct (Hcases (incoming s)) as [[-> [l ->]]|[-> ->]]; by split.
  - intros s. unfold Bootstrap.readTextFormStream.
    destruct (Hcases (incoming s)) as [[_ [l ->]]|[_ ->]]; [left; eauto|by right].
Qed.

(** A remote side that goes away before it sent a newline: both handlers
    log the read error, write nothing and leave the map and the world as
    they were. *)
Theorem handlers_drop_unterminated_input (s : Stream) (n : node) :
  contains_byte LF (incoming s) = false →
  Bootstrap.handleBootstrapStream s n =
    (tt, n, [ELog [S_ "流处:"; S_ (RemotePeer s); S_ (RemoteMultiaddr s)]; ELog [S_ "EOF"]]) ∧
  Dht.handleStream s n =
    (tt, n, [ELog [S_ "流处:"; S_ (RemotePeer s); S_ (RemoteMultiaddr s)]; ELog [S_ "EOF"]]).
Proof.
  intros Hin. unfold Bootstrap.handleBootstrapStream, Dht.handleStream,
    Bootstrap.readTextFormStream.
  rewrite (ReadString_no_delim _ _ Hin). run. done.
Qed.

(** The upsert of the inbound handlers.  [handleBootstrapStream] stores,
    under the sender's ID, the payload of the request when it is not empty
    and otherwise the remote address followed by [/ipfs/] and the ID;
    [handleStream] always stores the latter.  No other entry changes, the
    world is untouched, and the map grows by at most one entry. *)
Theorem handlers_upsert_sender :
  (∀ s n text,
     Bootstrap.readTextFormStream s = Ok text →
     let addr := if decide (text = "") then RemoteMultiaddr s +:+ "/ipfs/" +:+ RemotePeer s
                 else text in
     (Bootstrap.handleBootstrapStream s n).1.2 =
       mkNode (<[RemotePeer s := addr]> (peerMap n)) (world n) ∧
     (size (map_after (Bootstrap.handleBootstrapStream s) n) ≤ S (size (peerMap n)))%nat) ∧
  (∀ stream n line,
     ReadString LF (incoming stream) = Ok line →
     strings_Replace_nl line = "引导" →
     (Dht.handleStream stream n).1.2 =
       mkNode (<[RemotePeer stream := RemoteMultiaddr stream +:+ "/ipfs/" +:+ RemotePeer stream]>
                 (peerMap n)) (world n) ∧
     (size (map_after (Dht.handleStream stream) n) ≤ S (size (peerMap n)))%nat).
Proof.
  assert (Hsize : ∀ k v (m : gmap string string), (size (<[k := v]> m) ≤ S (size m))%nat).
  { intros k v m. destruct (m !! k) as [x|] eqn:Hk.
    - rewrite <-(insert_delete_id m k x) at 2 by done.
      rewrite <-(insert_delete_eq m), !map_size_insert_None by apply lookup_delete_eq. lia.
    - rewrite map_size_insert_None by done. lia. }
  split.
  - intros s n text Hread addr.
    destruct (handleBootstrapStream_run s n text Hread) as (ma & tail & Hrun & _).
    unfold map_after. rewrite Hrun. cbn [fst snd peerMap].
    assert (Haddr : (if decide (text ≠ "") then text
                     else strings_Join [RemoteMultiaddr s; "/ipfs/"; RemotePeer s] "") = addr).
    { unfold addr. destruct (decide (text = "")); [by rewrite decide_False by auto|].
      by rewrite decide_True. }
    rewrite Haddr. split; [done|apply Hsize].
  - intros stream n line Hread Htxt.
    destruct (handleStream_discovery_run stream n line Hread Htxt) as (ma & tail & Hrun & _).
    unfold map_after. rewrite Hrun. cbn [fst snd peerMap]. split; [done|apply Hsize].
Qed.

End handler_effects.

(** * Wire format and locking of the handlers *)

Section handler_discipline.
Context `{Externals}.

Lemma last_byte_line (text : string) : last_byte (text +:+ nl) = Some LF.
Proof.
  induction text as [|c text IH]; [done|].
  rewrite append_cons, last_byte_cons, IH. by destruct text.
Qed.

Lemma updatePeer_no_write jsonText :
  keeps (λ e, ∀ bytes, e = EWrite bytes → last_byte bytes = Some LF) any_map
    (Dht.updatePeer jsonText).
Proof. apply updatePeer_keeps; try apply _; done. Qed.

(** Everything the inbound handlers, [sayHi] and the [/p2p/dht] client
    write to a stream ends with a newline. *)
Theorem messages_are_newline_terminated :
  (∀ s n bytes, bytes ∈ written (trace (Bootstrap.handleBootstrapStream s) n) →
                last_byte bytes = Some LF) ∧
  (∀ stream n bytes, bytes ∈ written (trace (Dht.handleStream stream) n) →
                     last_byte bytes = Some LF) ∧
  (∀ maText n bytes, bytes ∈ written (trace (Dht.bootstrap maText) n) →
                     last_byte bytes = Some LF) ∧
  (∀ maText n bytes, bytes ∈ written (trace (Dht.sayHi maText) n) →
                     last_byte bytes = Some LF).
Proof.
  assert (Huse : ∀ A (c : M A),
    keeps (λ e, ∀ bytes, e = EWrite bytes → last_byte bytes = Some LF) any_map c →
    ∀ n bytes, bytes ∈ written (trace c n) → last_byte bytes = Some LF).
  { intros A c Hc n bytes Hin. apply written_elem_of in Hin.
    destruct (Hc n) as [Hall _]. rewrite Forall_forall in Hall. by apply (Hall _ Hin). }
  split; [|split; [|split]]; intros x; apply Huse.
  - unfold Bootstrap.handleBootstrapStream.
    repeat keeps_step; try done; intros ? [= <-]; apply (last_byte_line _).
  - unfold Dht.handleStream.
    repeat keeps_step; try done; intros ? [= <-]; apply (last_byte_line _).
  - unfold Dht.bootstrap.
    repeat first [keeps_step | apply updatePeer_no_write];
      try done; intros ? [= <-]; apply (last_byte_line _).
  - unfold Dht.sayHi.
    repeat keeps_step; try done; intros ? [= <-]; apply (last_byte_line _).
Qed.

Lemma network_unlocked_app st t1 t2 :
  network_unlocked st (t1 ++ t2) =
  network_unlocked st t1 &&
  match lock_run st t1 with Some st' => network_unlocked st' t2 | None => true end.
Proof.
  revert st. induction t1 as [|e t1 IH]; intros st; cbn; [done|].
  destruct (lock_step st e) as [st'|]; [|done].
  rewrite IH. by rewrite andb_assoc.
Qed.


Lemma network_unlocked_quiet st t :
  Forall (λ e, lock_step st e = Some st ∧ is_network e = false) t →
  network_unlocked st t = true.
Proof.
  induction 1 as [|e t [He Hn] _ IH]; [done|]. cbn. by rewrite He, Hn, IH.
Qed.



(** The greeting: on the marker [你好], [handleStream] writes the fixed
    acknowledgement and nothing else, takes no lock and leaves the map and
    the world as they were. *)
Theorem greeting_is_acknowledged (stream : Stream) (n : node) (line : string) :
  ReadString LF (incoming stream) = Ok line →
  strings_Replace_nl line = "你好" →
  written (trace (Dht.handleStream stream) n) = ["Fine!" +:+ nl] ∧
  (Dht.handleStream stream n).1.2 = n ∧
  Forall (λ e, is_io e = true) (trace (Dht.handleStream stream) n).
Proof.
  intros Hread Hhi. unfold trace, Dht.handleStream. rewrite Hread. cbv zeta. rewrite Hhi.
  rewrite decide_False, decide_True by done. run.
  destruct (write_err stream) as [e|]; run; (split; [done|]); (split; [done|]);
    by repeat constructor.
Qed.

End handler_discipline.

(** * Further properties of the reconciliation round *)

Section reconcile_more.
Context `{Externals}.
Import Bootstrap.

Lemma logged_elem_of args t : args ∈ logged t ↔ ELog args ∈ t.
Proof.
  unfold logged. rewrite list_elem_of_omap. split.
  - intros (e & Hin & He). destruct e; by simplify_eq.
  - intros Hin. by exists (ELog args).
Qed.

Lemma filter_lock_ops_nil t :
  Forall (λ e, is_lock_op e = false) t → filter (λ e, is_lock_op e = true) t = [].
Proof.
  induction 1 as [|e t He _ IH]; [done|].
  rewrite filter_cons, decide_False by congruence. exact IH.
Qed.

Lemma logged_app t1 t2 : logged (t1 ++ t2) = logged t1 ++ logged t2.
Proof. unfold logged. apply omap_app. Qed.

Lemma discover_logged_NoDup peers : ∀ idMap n,
  NoDup (logged (discover peers idMap n).2).
Proof.
  induction peers as [|p rest IH]; intros idMap n; [constructor|].
  destruct (peerMap n !! p) as [v|] eqn:Hp.
  - rewrite (discover_old _ _ _ _ _ Hp).
    specialize (IH (<[p:=0%Z]> idMap) n).
    by destruct (discover rest _ n) as [[r n'] t].
  - rewrite (discover_new _ _ _ _ Hp).
    specialize (IH (<[p:=0%Z]> idMap) (mkNode (<[p:=""]> (peerMap n)) (world n))).
    destruct (discover_spec rest (<[p:=0%Z]> idMap) (mkNode (<[p:=""]> (peerMap n)) (world n)))
      as (i' & m' & t & Hrun & _ & _ & Hj & _).
    rewrite Hrun in IH |- *. cbn in *.
    apply NoDup_cons. split; [|done].
    rewrite logged_elem_of. intros Hin. apply (Hj p) in Hin as [_ Hnone].
    by rewrite lookup_insert_eq in Hnone.
Qed.

Lemma forget_logged_NoDup idMap entries : ∀ n,
  NoDup entries.*1 → NoDup (logged (forget idMap entries n).2).
Proof.
  induction entries as [|[k v] rest IH]; intros n Hnd; [constructor|].
  cbn [fmap list_fmap fst] in Hnd. apply NoDup_cons in Hnd as [Hk Hnd].
  destruct (idMap !! k) as [z|] eqn:Hid.
  - rewrite (forget_keep _ _ _ _ _ _ Hid). by apply IH.
  - rewrite (forget_drop _ _ _ _ _ Hid).
    specialize (IH (mkNode (delete k (peerMap n)) (world n)) Hnd).
    destruct (forget_spec idMap rest (mkNode (delete k (peerMap n)) (world n)))
      as (m' & t & Hrun & _ & Hl & _).
    rewrite Hrun in IH |- *. cbn in *.
    apply NoDup_cons. split; [|done].
    rewrite logged_elem_of. intros Hin. by apply (Hl k) in Hin as [Hin _].
Qed.

Lemma reconcile_pieces m w :
  let B := dht_ListPeers (dht_RefreshRoutingTable w) in
  ∃ m' t1 t2,
    reconcile (mkNode m w) =
      (tt, mkNode m' (dht_RefreshRoutingTable w),
       [ERefresh; ELock] ++ t1 ++ [EMapRead] ++ t2 ++
       [EMapRead; ELog [S_ "DHT节点数量:"; I_ (Z.of_nat (size m'))]; EUnlock; ESleep 6]) ∧
    NoDup (logged t1) ∧ NoDup (logged t2) ∧
    (∀ e, e ∈ t1 → e = EMapRead ∨ ∃ k, e = joined k ∨ e = EMapSet k "") ∧
    (∀ e, e ∈ t2 → ∃ k, e = departed k ∨ e = EMapDelete k).
Proof.
  intros B. unfold reconcile. run. fold B.
  pose proof (discover_logged_NoDup B ∅ (mkNode m (dht_RefreshRoutingTable w))) as Hnd1.
  destruct (discover_spec B ∅ (mkNode m (dht_RefreshRoutingTable w)))
    as (idMap & m1 & t1 & Hrun1 & _ & _ & _ & _ & He1).
  rewrite Hrun1 in Hnd1 |- *. run.
  pose proof (forget_logged_NoDup idMap (map_range m1)
                (mkNode m1 (dht_RefreshRoutingTable w))) as Hnd2.
  destruct (forget_spec idMap (map_range m1) (mkNode m1 (dht_RefreshRoutingTable w)))
    as (m2 & t2 & Hrun2 & _ & _ & _ & He2).
  rewrite Hrun2 in Hnd2 |- *. cbn in *.
  exists m2, t1, t2. split; [by repeat f_equal|]. split; [done|]. split; [|done].
  apply Hnd2. rewrite map_range_perm. apply NoDup_fst_map_to_list.
Qed.

(** No line is logged twice in a round: with the lines of C1, each peer
    that joins and each peer that leaves is reported exactly once, also
    when the routing table lists a peer more than once. *)
Theorem reconcile_reports_once (m : gmap string string) (w : World) :
  NoDup (logged (trace reconcile (mkNode m w))).
Proof.
  destruct (reconcile_pieces m w) as (m' & t1 & t2 & Hrun & Hnd1 & Hnd2 & He1 & He2).
  unfold trace. rewrite Hrun. cbn [snd].
  rewrite !logged_app. cbn [logged omap list_omap app].
  change (omap _ t1) with (logged t1). change (omap _ t2) with (logged t2).
  apply NoDup_app. split; [done|]. split.
  - intros args Hin1 Hin. apply logged_elem_of in Hin1.
    apply He1 in Hin1 as [?|[k [Hk|?]]]; try done.
    apply elem_of_app in Hin as [Hin|Hin].
    + apply logged_elem_of in Hin. unfold joined, departed in *.
      apply He2 in Hin as [k' [?|?]]; simplify_eq.
    + apply list_elem_of_singleton in Hin. unfold joined in Hk. simplify_eq.
  - apply NoDup_app. split; [done|]. split; [|apply NoDup_singleton].
    intros args Hin2 Hin. apply logged_elem_of in Hin2.
    apply He2 in Hin2 as [k [Hk|?]]; try done.
    apply list_elem_of_singleton in Hin. unfold departed in Hk. simplify_eq.
Qed.

(** A round that finds the routing table and the map in agreement changes
    nothing: the map is the same, and no entry is set, deleted or
    reported. *)
Theorem reconcile_fixpoint (m : gmap string string) (w : World) :
  dom m = list_to_set (dht_ListPeers (dht_RefreshRoutingTable w)) →
  map_after reconcile (mkNode m w) = m ∧
  ∀ k, (∀ v, EMapSet k v ∉ trace reconcile (mkNode m w)) ∧
       EMapDelete k ∉ trace reconcile (mkNode m w) ∧
       joined k ∉ trace reconcile (mkNode m w) ∧
       departed k ∉ trace reconcile (mkNode m w).
Proof.
  intros Hdom.
  assert (HB : ∀ k, k ∈ dht_ListPeers (dht_RefreshRoutingTable w) ↔ is_Some (m !! k)).
  { intros k. by rewrite <-elem_of_dom, Hdom, elem_of_list_to_set. }
  destruct (reconcile_run m w) as (m2 & t1 & t2 & Hrun & Hm & Hj & Hs & He1 & Hl & Hd & He2).
  unfold map_after, trace. rewrite Hrun. cbn [fst snd peerMap]. split.
  - apply map_eq. intros k. rewrite Hm. case_decide as Hk.
    + apply HB in Hk as [v ->]. done.
    + symmetry. apply eq_None_not_Some. by rewrite <-HB.
  - intros k.
    assert (Hno1 : ¬ (k ∈ dht_ListPeers (dht_RefreshRoutingTable w) ∧ m !! k = None)).
    { intros [Hk Hnone]. apply HB in Hk as [v Hv]. congruence. }
    assert (Hno2 : ¬ (k ∉ dht_ListPeers (dht_RefreshRoutingTable w) ∧ is_Some (m !! k))).
    { intros [Hk Hsome]. by apply Hk, HB. }
    assert (Hcases : ∀ e,
      e ∈ [ERefresh; ELock] ++ t1 ++ [EMapRead] ++ t2 ++
          [EMapRead; ELog [S_ "DHT节点数量:"; I_ (Z.of_nat (size m2))]; EUnlock; ESleep 6] →
      (∀ k' v', e ≠ EMapSet k' v') ∧ (∀ k', e ≠ EMapDelete k') ∧
      (∀ k', e ≠ joined k') ∧ (∀ k', e ≠ departed k') ∨ e ∈ t1 ∨ e ∈ t2).
    { intros e. rewrite !elem_of_app, !elem_of_cons, elem_of_nil.
      unfold joined, departed. intros Hin. decompose [or] Hin; subst; auto; try done;
        left; repeat split; intros; done. }
    assert (H1 : ∀ e, e ∈ t1 → (∀ v, e ≠ EMapSet k v) ∧ e ≠ EMapDelete k ∧
                               e ≠ joined k ∧ e ≠ departed k).
    { intros e Hin. split; [intros v ->|repeat split; intros ->].
      - apply Hs in Hin. tauto.
      - apply He1 in Hin as [|[k' [|]]]; done.
      - apply Hj in Hin. tauto.
      - apply He1 in Hin as [|[k' [|]]]; done. }
    assert (H2 : ∀ e, e ∈ t2 → (∀ v, e ≠ EMapSet k v) ∧ e ≠ EMapDelete k ∧
                               e ≠ joined k ∧ e ≠ departed k).
    { intros e Hin. split; [intros v ->|repeat split; intros ->].
      - apply He2 in Hin as [k' [|]]; done.
      - apply Hd in Hin. tauto.
      - apply He2 in Hin as [k' [|]]; done.
      - apply Hl in Hin. tauto. }
    split; [intros v Hin|repeat split; intros Hin];
      (apply Hcases in Hin as [(?&?&?&?)|[Hin|Hin]];
        [naive_solver | apply H1 in Hin; naive_solver | apply H2 in Hin; naive_solver]).
Qed.

(** The round is one critical section: it takes the exclusive lock once,
    releases it once, touches the map only in between, goes to the network
    (the refresh) only before taking it, and the count it logs before
    releasing the lock is the number of distinct peers the routing table
    listed. *)
Theorem reconcile_critical_section (m : gmap string string) (w : World) :
  let t := trace reconcile (mkNode m w) in
  lock_disciplined t = true ∧
  network_unlocked Unlocked t = true ∧
  filter (λ e, is_lock_op e = true) t = [ELock; EUnlock] ∧
  ELog [S_ "DHT节点数量:";
        I_ (Z.of_nat (size (list_to_set (dht_ListPeers (dht_RefreshRoutingTable w))
                              : gset string)))] ∈ t.
Proof.
  intros t. split; [apply reconcile_lock_disciplined|].
  destruct (reconcile_run m w) as (m2 & t1 & t2 & Hrun & Hm & _ & _ & He1 & _ & _ & He2).
  assert (Hdom : dom m2 = list_to_set (dht_ListPeers (dht_RefreshRoutingTable w))).
  { apply set_eq. intros k. rewrite elem_of_dom, Hm, elem_of_list_to_set.
    case_decide; split; first [done | by intros [? ?] | by eauto]. }
  unfold t, trace. rewrite Hrun. cbn [snd].
  assert (Hq1 : Forall (λ e, lock_step WriteLocked e = Some WriteLocked ∧
                             is_network e = false) t1).
  { apply Forall_forall. intros e [->|[k [->| ->]]]%He1; done. }
  assert (Hq2 : Forall (λ e, lock_step WriteLocked e = Some WriteLocked ∧
                             is_network e = false) t2).
  { apply Forall_forall. intros e [k [->| ->]]%He2; done. }
  assert (Hf1 : filter (λ e, is_lock_op e = true) t1 = []).
  { apply filter_lock_ops_nil, Forall_forall.
    intros e [->|[k [->| ->]]]%He1; done. }
  assert (Hf2 : filter (λ e, is_lock_op e = true) t2 = []).
  { apply filter_lock_ops_nil, Forall_forall. intros e [k [->| ->]]%He2; done. }
  split; [|split].
  - cbn. rewrite network_unlocked_app, (network_unlocked_quiet _ _ Hq1).
    rewrite (lock_run_stable WriteLocked t1) by (eapply Forall_impl; [exact Hq1|by intros ? []]).
    cbn. rewrite network_unlocked_app, (network_unlocked_quiet _ _ Hq2).
    by rewrite (lock_run_stable WriteLocked t2) by (eapply Forall_impl; [exact Hq2|by intros ? []]).
  - rewrite !filter_app, Hf1, Hf2. done.
  - rewrite <-Hdom, size_dom. set_solver.
Qed.

End reconcile_more.

(** * Further properties of the bootstrap clients *)

Section clients.
Context `{Externals}.

(** Closes a goal about an explicit trace that holds no [EMapSet]. *)
Ltac no_set_in_trace :=
  intros ? ? Hin;
  repeat (apply elem_of_cons in Hin as [?|Hin]; [done|]);
  by apply elem_of_nil in Hin.

Ltac untouched := run; intros _; split; [done|no_set_in_trace].

Lemma bootstrap_v1_failure natAddr addrText n e :
  value (Bootstrap.bootstrap natAddr addrText) n = Some e →
  map_after (Bootstrap.bootstrap natAddr addrText) n = peerMap n ∧
  ∀ k v, EMapSet k v ∉ trace (Bootstrap.bootstrap natAddr addrText) n.
Proof.
  unfold value, map_after, trace, Bootstrap.bootstrap.
  destruct (textToAddrInfo addrText) as [ai|e0]; [|untouched].
  run. unfold node_Connect.
  destruct (host_Connect ai (world n)) as [[e1|] w1]; run;
    [untouched|].
  unfold node_NewStream. run.
  match goal with
  | |- context [host_NewStream ?a ?b ?c] => destruct (host_NewStream a b c) as [[s|e2] w2]
  end; run;
    [|untouched].
  destruct (write_err s) as [e3|]; run; [untouched|].
  destruct (Bootstrap.readTextFormStream s) as [text|e4]; run;
    [|untouched].
  destruct (reset_err s) as [e5|]; run; [untouched|].
  destruct (json_Unmarshal text) as [l|e6]; run;
    [|untouched].
  by destruct (Bootstrap.connect_each l _) as [[r n'] t].
Qed.

Lemma bootstrap_v2_failure maText n e :
  value (Dht.bootstrap maText) n = Some e →
  map_after (Dht.bootstrap maText) n = peerMap n ∧
  ∀ k v, EMapSet k v ∉ trace (Dht.bootstrap maText) n.
Proof.
  unfold value, map_after, trace, Dht.bootstrap.
  destruct (textToAddrInfo maText) as [ai|e0]; [|untouched].
  run. unfold node_Connect.
  destruct (host_Connect ai (world n)) as [[e1|] w1]; run;
    [untouched|].
  unfold node_NewStream. run.
  match goal with
  | |- context [host_NewStream ?a ?b ?c] => destruct (host_NewStream a b c) as [[s|e2] w2]
  end; run;
    [|untouched].
  destruct (write_err s) as [e3|]; run; [untouched|].
  destruct (ReadString LF (incoming s)) as [text|e4]; run;
    [|untouched].
  destruct (reset_err s) as [e5|]; run; [untouched|].
  by destruct (Dht.updatePeer _ _) as [[r n'] t].
Qed.

(** A bootstrap that returns an error has not touched the map: every
    error either client can return is raised before the first upsert. *)
Theorem bootstrap_failure_is_atomic :
  (∀ natAddr addrText n e,
     value (Bootstrap.bootstrap natAddr addrText) n = Some e →
     map_after (Bootstrap.bootstrap natAddr addrText) n = peerMap n ∧
     ∀ k v, EMapSet k v ∉ trace (Bootstrap.bootstrap natAddr addrText) n) ∧
  (∀ maText n e,
     value (Dht.bootstrap maText) n = Some e →
     map_after (Dht.bootstrap maText) n = peerMap n ∧
     ∀ k v, EMapSet k v ∉ trace (Dht.bootstrap maText) n).
Proof. split; [exact bootstrap_v1_failure|exact bootstrap_v2_failure]. Qed.

(** A reply that is not JSON.  The [/mp2p/bootstrap] client returns the
    decoder's error; the [/p2p/dht] client logs it inside [updatePeer] and
    returns no error.  Neither touches the map. *)
Theorem undecodable_reply (natAddr addr : string) (ai : AddrInfo Multiaddr) (n : node)
    (w1 w2 : World) (s : Stream) (line e : string) :
  textToAddrInfo addr = Ok ai →
  host_Connect ai (world n) = (None, w1) →
  (∀ protocol, host_NewStream (ID ai) protocol w1 = (Ok s, w2)) →
  write_err s = None →
  ReadString LF (incoming s) = Ok line →
  reset_err s = None →
  json_Unmarshal (strings_Replace_nl line) = Err e →
  value (Bootstrap.bootstrap natAddr addr) n = Some e ∧
  (Bootstrap.bootstrap natAddr addr n).1.2 = mkNode (peerMap n) w2 ∧
  value (Dht.bootstrap addr) n = None ∧
  (Dht.bootstrap addr n).1.2 = mkNode (peerMap n) w2 ∧
  last (trace (Dht.bootstrap addr) n) = Some (ELog [S_ e]).
Proof.
  intros Hp Hc Hs Hw Hr Hreset Hj.
  unfold value, trace, Bootstrap.bootstrap, Dht.bootstrap, Dht.updatePeer,
    Bootstrap.readTextFormStream.
  rewrite Hp. run. unfold node_Connect, node_NewStream. rewrite Hc. run.
  rewrite !Hs. run. rewrite Hw. run. rewrite Hr. run. rewrite Hreset. run.
  rewrite Hj. run. done.
Qed.





(** The exact effect of [updatePeer]: when the text does not decode, one
    log line and nothing else; when it decodes to [l], a key that no
    well-formed entry of [l] names keeps its value (or its absence), and a
    key that one names ends with a connect string of [l] that names it. *)
Theorem updatePeer_effect (jsonText : string) (n : node) :
  match json_Unmarshal jsonText with
  | Err e => Dht.updatePeer jsonText n = (tt, n, [ELog [S_ e]])
  | Ok l =>
      world (Dht.updatePeer jsonText n).1.2 = world n ∧
      ∀ k, (map_after (Dht.updatePeer jsonText) n !! k = peerMap n !! k ∧
            ∀ v ai, v ∈ l → textToAddrInfo v = Ok ai → ID ai ≠ k) ∨
           (∃ v ai, v ∈ l ∧ textToAddrInfo v = Ok ai ∧ ID ai = k ∧
                    map_after (Dht.updatePeer jsonText) n !! k = Some v)
  end.
Proof.
  unfold Dht.updatePeer. destruct (json_Unmarshal jsonText) as [l|e]; [|done].
  split; [|apply update_each_lookup].
  clear. revert n. induction l as [|v rest IH]; intros n; [done|].
  destruct (textToAddrInfo v) as [ai|e] eqn:Hv.
  - rewrite (update_each_parsed _ _ _ _ Hv).
    specialize (IH (mkNode (<[ID ai := v]> (peerMap n)) (world n))).
    by destruct (Dht.update_each rest _) as [[r n'] t].
  - rewrite (update_each_malformed _ _ _ _ Hv). specialize (IH n).
    by destruct (Dht.update_each rest _) as [[r n'] t].
Qed.

End clients.

(** * The fragments of [Init] and the handshake end to end *)

Section startup.
Context `{Externals}.

Lemma sayHi_each_keeps (P : event → Prop) R `{!PreOrder R} :
  (∀ id, P (EConnect id)) → (∀ args, P (ELog args)) →
  (∀ id protocol, P (ENewStream id protocol)) → (∀ bytes, P (EWrite bytes)) →
  P EReset →
  ∀ values, keeps P R (Dht.sayHi_each values).
Proof.
  intros Hc Hl Hn Hw Hr values.
  induction values as [|v rest IH]; cbn [Dht.sayHi_each].
  - by apply keeps_ret.
  - apply keeps_bind; [apply _| |intros _; exact IH].
    unfold Dht.sayHi. repeat keeps_step; auto.
Qed.

Lemma unlocked_read_undisciplined t :
  Forall (λ e, is_lock_op e = false) t → EMapRead ∈ t → lock_run Unlocked t = None.
Proof.
  induction 1 as [|e t He _ IH]; intros Hin; [by apply elem_of_nil in Hin|].
  apply elem_of_cons in Hin as [<-|Hin]; [done|].
  cbn [lock_run]. destruct e; try done; cbn; auto.
Qed.

Lemma updatePeer_keeps_eq_free jsonText :
  keeps (λ e, is_lock_op e = false) any_map (Dht.updatePeer jsonText).
Proof. apply updatePeer_keeps; try apply _; done. Qed.

(** The client phase of [Init] in the [/p2p/dht] variant.  Without a seed
    address it does nothing.  With one, the greeting loop that follows
    [bootstrap] leaves the map as [bootstrap] left it, and it ranges over
    the map without taking the lock, so the phase never follows the locking
    discipline. *)
Theorem greeting_phase (bootstrapText : string) (n : node) :
  Dht.Init_bootstrap "" n = (tt, n, []) ∧
  (bootstrapText ≠ "" →
   map_after (Dht.Init_bootstrap bootstrapText) n = map_after (Dht.bootstrap bootstrapText) n ∧
   EMapRead ∈ trace (Dht.Init_bootstrap bootstrapText) n ∧
   Forall (λ e, is_lock_op e = false) (trace (Dht.Init_bootstrap bootstrapText) n) ∧
   lock_disciplined (trace (Dht.Init_bootstrap bootstrapText) n) = false).
Proof.
  split; [done|]. intros Hne.
  assert (Hfree : keeps (λ e, is_lock_op e = false) any_map (Dht.Init_bootstrap bootstrapText)).
  { unfold Dht.Init_bootstrap, Dht.bootstrap.
    repeat first [keeps_step | apply updatePeer_keeps_eq_free
                 | apply sayHi_each_keeps; try apply _]; done. }
  assert (Hread : EMapRead ∈ trace (Dht.Init_bootstrap bootstrapText) n).
  { unfold Dht.Init_bootstrap. rewrite decide_True by done.
    rewrite !trace_bind, !elem_of_app. right. right. left.
    unfold trace, peerMap_range. cbn. constructor. }
  split; [|split; [done|split; [apply Hfree|]]].
  - unfold Dht.Init_bootstrap. rewrite decide_True by done.
    rewrite !map_after_bind.
    match goal with
    | |- map_after (Dht.sayHi_each ?l) ?n' = _ =>
        destruct (sayHi_each_keeps (λ _, True) eq (λ _, I) (λ _, I) (λ _ _, I) (λ _, I) I
                    l n') as [_ Heq]
    end.
    rewrite <-Heq. clear Heq. unfold map_after.
    match goal with
    | |- context [match ?x with Some _ => _ | None => _ end] => destruct x
    end; reflexivity.
  - unfold lock_disciplined.
    by rewrite (unlocked_read_undisciplined _ (proj1 (Hfree n)) Hread).
Qed.

Lemma show_each_run peers n :
  Dht.show_each peers n = (tt, n, (λ p, ELog [S_ "DHT节点:"; S_ p]) <$> peers).
Proof.
  induction peers as [|p rest IH]; [done|].
  cbn [Dht.show_each]. run. by rewrite IH.
Qed.

(** The background round of the [/p2p/dht] variant only reports: after the
    refresh it logs the listed peers in the order of the list, then the
    separator, and sleeps; it touches neither the map nor the lock. *)
Theorem show_round_reports (n : node) :
  Dht.show_round n =
    (tt, mkNode (peerMap n) (dht_RefreshRoutingTable (world n)),
     [ERefresh] ++
     ((λ p, ELog [S_ "DHT节点:"; S_ p]) <$> dht_ListPeers (dht_RefreshRoutingTable (world n))) ++
     [ELog [S_ "---"]; ESleep 6]).
Proof.
  unfold Dht.show_round. run. rewrite show_each_run. run. done.
Qed.

(** The client phase of [Init] in the [/mp2p/bootstrap] variant: without a
    seed address it does nothing; an error of [bootstrap] is logged as the
    last line and goes no further, with the map as it was. *)
Theorem client_phase_logs_failure (natAddr bootstrapAddr : string) (n : node) (e : error) :
  Bootstrap.Init_bootstrap natAddr "" n = (tt, n, []) ∧
  (bootstrapAddr ≠ "" →
   value (Bootstrap.bootstrap natAddr bootstrapAddr) n = Some e →
   trace (Bootstrap.Init_bootstrap natAddr bootstrapAddr) n =
     trace (Bootstrap.bootstrap natAddr bootstrapAddr) n ++ [ELog [S_ e]] ∧
   map_after (Bootstrap.Init_bootstrap natAddr bootstrapAddr) n = peerMap n).
Proof.
  split; [done|]. intros Hne He.
  destruct (bootstrap_v1_failure natAddr bootstrapAddr n e He) as [Hm _].
  unfold Bootstrap.Init_bootstrap. rewrite decide_True by done.
  rewrite trace_bind, map_after_bind.
  repeat match goal with
  | |- context [match ?x with Some _ => _ | None => _ end] =>
      assert (x = Some e) as -> by exact He
  end.
  split; [done|]. exact Hm.
Qed.

Lemma written_app t1 t2 : written (t1 ++ t2) = written t1 ++ written t2.
Proof. unfold written. apply omap_app. Qed.

Lemma read_reply_line (j : string) :
  contains_byte LF j = false → read_reply (j +:+ nl) = json_Unmarshal j.
Proof.
  intros Hj. unfold read_reply.
  by rewrite (readTextFormStream_first_line _ j "" Hj).
Qed.

Lemma bootstrap_v2_request maText :
  keeps (λ e, ∀ bytes, e = EWrite bytes → bytes = "引导" +:+ nl) any_map
    (Dht.bootstrap maText).
Proof.
  unfold Dht.bootstrap.
  repeat first [keeps_step | apply updatePeer_keeps; try apply _];
    try done; intros; by simplify_eq.
Qed.

(** The handshake of the [/p2p/dht] variant end to end.  The request its
    client writes is read by [handleStream] as the discovery marker; the
    handler answers with one line; reading that line as the client does and
    decoding it gives, in some order, the connect strings of the entries,
    other than the requester's, of the map the handler was given; and
    [updatePeer] on that line is the batch loop over that list.  This is
    given that the JSON encoder yields text without a raw newline which the
    decoder inverts, and that the decoder reads [[]] as the empty list. *)
Theorem dht_handshake_round_trip (maText request : string) (client seed : node)
    (stream : Stream) :
  request ∈ written (trace (Dht.bootstrap maText) client) →
  incoming stream = request →
  json_Unmarshal "[]" = Ok [] →
  (∀ l, l ≡ₚ others (RemotePeer stream) (peerMap seed) →
        ∃ j, json_Marshal l = Ok j ∧ json_Unmarshal j = Ok l ∧ contains_byte LF j = false) →
  ∃ wire line l,
    written (trace (Dht.handleStream stream) seed) = [wire] ∧
    ReadString LF wire = Ok line ∧
    json_Unmarshal (strings_Replace_nl line) = Ok l ∧
    l ≡ₚ others (RemotePeer stream) (peerMap seed) ∧
    (∀ v, v ∈ l ↔ ∃ k, k ≠ RemotePeer stream ∧ peerMap seed !! k = Some v) ∧
    ∀ c, Dht.updatePeer (strings_Replace_nl line) c = Dht.update_each l c.
Proof.
  intros Hreq Hin Hnil Hjson.
  assert (request = "引导" +:+ nl) as ->.
  { apply written_elem_of in Hreq.
    destruct (bootstrap_v2_request maText client) as [Hall _].
    rewrite Forall_forall in Hall. by apply (Hall _ Hreq). }
  assert (Hread : ReadString LF (incoming stream) = Ok ("引导" +:+ nl)).
  { rewrite Hin. apply (ReadString_line LF "引导" ""). reflexivity. }
  destruct (handleStream_discovery_run stream seed _ Hread eq_refl)
    as (ma & tail & Hrun & Hp & _ & Hw).
  rewrite others_insert in Hp.
  unfold trace. rewrite Hrun. cbn [fst snd].
  assert (Hdecode : ∀ j, contains_byte LF j = false →
            ReadString LF (j +:+ nl) = Ok (j +:+ nl) ∧ strings_Replace_nl (j +:+ nl) = j).
  { intros j Hj. split; [apply (ReadString_line LF j "" Hj)|by apply strings_Replace_nl_line]. }
  assert (Hgoal : ∀ wire j, written tail = [wire] → wire = j +:+ nl →
            contains_byte LF j = false → json_Unmarshal j = Ok ma →
            ∃ wire line l,
              written tail = [wire] ∧ ReadString LF wire = Ok line ∧
              json_Unmarshal (strings_Replace_nl line) = Ok l ∧
              l ≡ₚ others (RemotePeer stream) (peerMap seed) ∧
              (∀ v, v ∈ l ↔ ∃ k, k ≠ RemotePeer stream ∧ peerMap seed !! k = Some v) ∧
              ∀ c, Dht.updatePeer (strings_Replace_nl line) c = Dht.update_each l c).
  { intros wire j Hwire -> Hj Hu. destruct (Hdecode j Hj) as [Hr Hs].
    exists (j +:+ nl), (j +:+ nl), ma. rewrite Hs.
    split; [done|]. split; [done|]. split; [done|]. split; [done|]. split.
    - intros v. rewrite Hp. apply others_elem_of.
    - intros c. unfold Dht.updatePeer. by rewrite Hu. }
  destruct ma as [|a ma'].
  - by apply (Hgoal ("[]" +:+ nl) "[]").
  - destruct (Hjson _ Hp) as (j & Hm & Hu & Hlf). rewrite Hm in Hw.
    by apply (Hgoal (j +:+ nl) j).
Qed.

End startup.

(** * The greeting client, and runs of the further properties *)

Section greetings.
Context `{Externals}.

(** [sayHi] only greets: whatever it writes is the greeting marker and a
    newline, it takes no lock, and it leaves the map as it was. *)
Theorem sayHi_only_greets (maText : string) (n : node) :
  map_after (Dht.sayHi maText) n = peerMap n ∧
  (∀ bytes, bytes ∈ written (trace (Dht.sayHi maText) n) → bytes = "你好" +:+ nl) ∧
  Forall (λ e, is_io e = true) (trace (Dht.sayHi maText) n).
Proof.
  assert (Hk : keeps (λ e, is_io e = true ∧ ∀ bytes, e = EWrite bytes → bytes = "你好" +:+ nl)
                 eq (Dht.sayHi maText)).
  { unfold Dht.sayHi. repeat keeps_step; try done; split; try done; by intros ? [= <-]. }
  destruct (Hk n) as [Hall Hm]. split; [done|]. split.
  - intros bytes Hin. apply written_elem_of in Hin.
    rewrite Forall_forall in Hall. by apply (Hall _ Hin).
  - eapply Forall_impl; [exact Hall|]. by intros e [? _].
Qed.

End greetings.

Section further_runs.
Import Demo.

Lemma unterminated_input_witness :
  Bootstrap.handleBootstrapStream silent seed =
    (tt, seed, [ELog [S_ "流处:"; S_ "QmP"; S_ "/ip4/10.0.0.2/udp/4001/quic"]; ELog [S_ "EOF"]]) ∧
  Dht.handleStream silent seed =
    (tt, seed, [ELog [S_ "流处:"; S_ "QmP"; S_ "/ip4/10.0.0.2/udp/4001/quic"]; ELog [S_ "EOF"]]).
Proof. apply (handlers_drop_unterminated_input silent seed). reflexivity. Defined.

Lemma greeting_witness :
  written (trace (Dht.handleStream greeting) seed) = ["Fine!" +:+ nl] ∧
  (Dht.handleStream greeting seed).1.2 = seed ∧
  Forall (λ e, is_io e = true) (trace (Dht.handleStream greeting) seed).
Proof.
  apply (greeting_is_acknowledged greeting seed (line "你好")); reflexivity.
Defined.

Lemma reconcile_fixpoint_witness :
  map_after Bootstrap.reconcile settled = peerMap settled ∧
  ∀ k, (∀ v, EMapSet k v ∉ trace Bootstrap.reconcile settled) ∧
       EMapDelete k ∉ trace Bootstrap.reconcile settled ∧
       Bootstrap.joined k ∉ trace Bootstrap.reconcile settled ∧
       Bootstrap.departed k ∉ trace Bootstrap.reconcile settled.
Proof.
  apply (reconcile_fixpoint (peerMap settled) (world settled)).
  vm_compute. reflexivity.
Defined.

Lemma undecodable_reply_witness :
  value (Bootstrap.bootstrap "" "/seed") confused = Some "cannot unmarshal into Go value of type []string" ∧
  (Bootstrap.bootstrap "" "/seed" confused).1.2 = mkNode (peerMap confused) (world confused) ∧
  value (Dht.bootstrap "/seed") confused = None ∧
  (Dht.bootstrap "/seed" confused).1.2 = mkNode (peerMap confused) (world confused) ∧
  last (trace (Dht.bootstrap "/seed") confused) =
    Some (ELog [S_ "cannot unmarshal into Go value of type []string"]).
Proof.
  apply (undecodable_reply (H := externals) "" "/seed" (mkAddrInfo "/seed" ["/seed"]) confused
           (world confused) (world confused)
           (mkStream "/seed" "/seed" (line "garbage") None None) (line "garbage"));
    first [reflexivity | intros protocol; reflexivity].
Defined.

Lemma dht_handshake_witness :
  ∃ wire line l,
    written (trace (Dht.handleStream asking) seed) = [wire] ∧
    ReadString LF wire = Ok line ∧
    json_Unmarshal (strings_Replace_nl line) = Ok l ∧
    l ≡ₚ others "QmP" (peerMap seed) ∧
    (∀ v, v ∈ l ↔ ∃ k, k ≠ "QmP" ∧ peerMap seed !! k = Some v) ∧
    ∀ c, Dht.updatePeer (strings_Replace_nl line) c = Dht.update_each l c.
Proof.
  apply (dht_handshake_round_trip "/seed" (line "引导") joining seed asking).
  - vm_compute. constructor.
  - reflexivity.
  - reflexivity.
  - intros l Hl.
    assert (Ho : others (RemotePeer asking) (peerMap seed) =
                 ["/ip4/10.0.0.1/udp/4001/quic/ipfs/QmA"]) by (vm_compute; reflexivity).
    rewrite Ho in Hl. apply Permutation_singleton_r in Hl. subst l.
    eexists. split; [reflexivity|]. split; vm_compute; reflexivity.
Defined.

(** The whole greeting phase on [joining] takes no lock although it reads
    and writes the map. *)
Example greeting_phase_joining :
  lock_disciplined (trace (Dht.Init_bootstrap "/seed") joining) = false ∧
  map_after (Dht.Init_bootstrap "/seed") joining =
    <["/a" := "/a"]> (<["/b" := "/b"]> ∅).
Proof. vm_compute. done. Qed.

End further_runs.
